(** * flatlib.ephem.swe: the Swiss Ephemeris adapter

    A shallow embedding of [flatlib/ephem/swe.py] and the properties of
    its eight query functions.

    Conventions of the embedding.
    - Python [float] values (Julian days, degrees, magnitudes) are exact
      rationals [Q]; binary64 rounding is outside the model.
    - Python [int] values (body codes, engine flags) are [Z].
    - [str] is [string]; [bytes] is [list Byte.byte].
    - A [dict] used as a lookup table is a [gmap]; a missing key raises
      [KeyError].
    - A tuple returned by the engine is a [list]; indexing it out of
      range raises [IndexError].
    - The [swisseph] extension module is a record of response functions;
      every call to it is recorded in the [World], which also holds the
      engine's process-wide ephemeris path. *)

From Stdlib Require Import ZArith QArith Qround Lqa Lia List String.
From Stdlib.Strings Require Import Byte.
From stdpp Require Import gmap strings.
Import ListNotations.

Local Open Scope Q_scope.

(** ** flatlib.angle *)

Module angle.

(** Modelled from the spec: [flatlib.angle.norm], which is not part of
    the sources at hand; "maps any real degree value into [0,360)",
    "(L + 180) mod 360".  This is Python's [a % 360] on exact numbers:
    [a - 360 * floor (a / 360)]. *)
Definition norm (a : Q) : Q :=
  a - inject_Z (360 * Qfloor (a / 360)).

(** Modelled from the spec: [flatlib.angle.distance], which is not part
    of the sources at hand; "the shortest non-negative forward difference
    modulo 360" from the first angle to the second ("distance from 350
    to 10 is 20, not -340"). *)
Definition distance (angle1 angle2 : Q) : Q :=
  norm (angle2 - angle1).

End angle.

(** ** flatlib.const

    The constants module is not part of the sources at hand.  The adapter
    only uses its values as dictionary keys, labels and the ephemeris
    path, so they are taken as they come: a record of names. *)

Record Const : Type := {
  SUN : string; MOON : string; MERCURY : string; VENUS : string;
  MARS : string; JUPITER : string; SATURN : string; URANUS : string;
  NEPTUNE : string; PLUTO : string; CHIRON : string; NORTH_NODE : string;
  PHOLUS : string; CERES : string; PALLAS : string; JUNO : string;
  VESTA : string;
  HOUSES_PLACIDUS : string; HOUSES_KOCH : string;
  HOUSES_PORPHYRIUS : string; HOUSES_REGIOMONTANUS : string;
  HOUSES_CAMPANUS : string; HOUSES_EQUAL : string; HOUSES_EQUAL_2 : string;
  HOUSES_VEHLOW_EQUAL : string; HOUSES_WHOLE_SIGN : string;
  HOUSES_MERIDIAN : string; HOUSES_AZIMUTHAL : string;
  HOUSES_POLICH_PAGE : string; HOUSES_ALCABITUS : string;
  HOUSES_MORINUS : string;
  LIST_HOUSES : list string;
  ASC : string; MC : string; DESC : string; IC : string;
  SE_PATH : string
}.

(** ** Python values and exceptions *)

Definition bytes : Type := list Byte.byte.

Inductive exn : Type :=
| KeyError (key : string)
| IndexError
| SweError (msg : string).

Inductive result (A : Type) : Type :=
| Ok (a : A)
| Raise (e : exn).

Arguments Ok {A} a.
Arguments Raise {A} e.

(** ** The engine: the [swisseph] extension module *)

(** The two search modes [sweNextTransit] chooses between,
    [swisseph.CALC_RISE] and [swisseph.CALC_SET]. *)
Inductive rsmi : Type := CALC_RISE | CALC_SET.

(** One constructor per engine routine the adapter calls, with the
    arguments of the call. *)
Inductive call : Type :=
| SetEphePath (path : string)
| CalcUt (jd : Q) (body flags : Z)
| RiseTrans (jd : Q) (body : Z) (lon lat arg5 arg6 arg7 : Q) (mode : rsmi)
| HousesEx (jd lat lon : Q) (hsys : bytes) (flags : Z)
| Fixstar2Ut (star : string) (jd : Q) (flag : Z)
| Fixstar2Mag (star : string)
| SolEclipseWhenGlob (jd : Q) (backward : bool)
| LunEclipseWhen (jd : Q) (backward : bool).

(** The process-wide state of the engine: the ephemeris path last set
    ([None] before the first [set_ephe_path]) and the engine calls made
    so far, oldest first. *)
Record World : Type := {
  ephe_path : option string;
  trace : list call
}.

(** What each routine answers, given the state it is called in: [inl msg]
    when it raises [swisseph.Error], [inr v] when it returns [v]. *)
Record Swisseph : Type := {
  calc_ut : World -> Q -> Z -> Z -> string + (list Q * Z);
  rise_trans :
    World -> Q -> Z -> Q -> Q -> Q -> Q -> Q -> rsmi -> string + (Z * list Q);
  houses_ex : World -> Q -> Q -> Q -> bytes -> Z -> string + (list Q * list Q);
  fixstar2_ut : World -> string -> Q -> Z -> string + (list Q * string * Z);
  fixstar2_mag : World -> string -> string + Q;
  sol_eclipse_when_glob : World -> Q -> bool -> string + (Z * list Q);
  lun_eclipse_when : World -> Q -> bool -> string + (Z * list Q)
}.

(** ** Computations: state passing with exceptions *)

Definition Py (A : Type) : Type := World -> result A * World.

Definition ret {A : Type} (a : A) : Py A := fun w => (Ok a, w).

Definition raise {A : Type} (e : exn) : Py A := fun w => (Raise e, w).

Definition bind {A B : Type} (m : Py A) (k : A -> Py B) : Py B :=
  fun w =>
    match m w with
    | (Ok a, w') => k a w'
    | (Raise e, w') => (Raise e, w')
    end.

Declare Scope py_scope.
Delimit Scope py_scope with py.
Notation "'let*' x ':=' m 'in' k" := (bind m (fun x => k))
  (at level 10, x pattern, m at level 100, k at level 200) : py_scope.
Local Open Scope py_scope.

(** [t[i]] on a tuple. *)
Definition getitem {A : Type} (t : list A) (i : nat) : Py A :=
  match t !! i with
  | Some x => ret x
  | None => raise IndexError
  end.

(** [d[k]] on a dictionary. *)
Definition lookup_key {V : Type} (d : gmap string V) (k : string) : Py V :=
  match d !! k with
  | Some v => ret v
  | None => raise (KeyError k)
  end.

(** [{k1: v1, ..., kn: vn}]: the items are stored left to right, so a
    repeated key keeps its last value. *)
Definition dict_display {V : Type} (items : list (string * V)) : gmap string V :=
  fold_left (fun d kv => <[kv.1 := kv.2]> d) items ∅.

(** [[f(i) for i in l]] *)
Fixpoint comprehension {A B : Type} (f : A -> Py B) (l : list A) : Py (list B) :=
  match l with
  | [] => ret []
  | i :: l' =>
      let* y := f i in
      let* ys := comprehension f l' in
      ret (y :: ys)
  end.

(** An engine call: it is recorded, then returns or raises what the
    engine answers in the state before the call. *)
Definition invoke {A : Type} (c : call) (answer : World -> string + A) : Py A :=
  fun w =>
    let w' := {| ephe_path := ephe_path w; trace := trace w ++ [c] |} in
    match answer w with
    | inr v => (Ok v, w')
    | inl msg => (Raise (SweError msg), w')
    end.

(** The calls made by a run from [w], oldest first. *)
Definition calls_of {A : Type} (m : Py A) (w : World) : list call :=
  drop (length (trace w)) (trace (m w).2).

(** ** The dictionaries the adapter returns *)

Record object : Type := {
  object_id : string;
  object_lon : Q;
  object_lat : Q;
  object_lonspeed : Q;
  object_latspeed : Q;
  object_flg : Z
}.

Record house : Type := {
  house_id : string;
  house_lon : Q;
  house_size : Q
}.

Record angle_rec : Type := {
  angle_id : string;
  angle_lon : Q
}.

Record fixed_star : Type := {
  star_id : string;
  star_mag : Q;
  star_lon : Q;
  star_lat : Q
}.

Record solar_eclipse : Type := {
  solar_maximum : Q;
  solar_begin : Q;
  solar_end : Q;
  solar_totality_begin : Q;
  solar_totality_end : Q;
  solar_center_line_begin : Q;
  solar_center_line_end : Q
}.

Record lunar_eclipse : Type := {
  lunar_maximum : Q;
  lunar_partial_begin : Q;
  lunar_partial_end : Q;
  lunar_totality_begin : Q;
  lunar_totality_end : Q;
  lunar_penumbral_begin : Q;
  lunar_penumbral_end : Q
}.

(** ** flatlib.ephem.swe *)

Section Swe.

Variable const : Const.
Variable swisseph : Swisseph.

(** Map objects *)
Definition SWE_OBJECTS : gmap string Z :=
  dict_display [
    (SUN const, 0%Z);
    (MOON const, 1%Z);
    (MERCURY const, 2%Z);
    (VENUS const, 3%Z);
    (MARS const, 4%Z);
    (JUPITER const, 5%Z);
    (SATURN const, 6%Z);
    (URANUS const, 7%Z);
    (NEPTUNE const, 8%Z);
    (PLUTO const, 9%Z);
    (CHIRON const, 15%Z);
    (NORTH_NODE const, 10%Z);
    (PHOLUS const, 16%Z);
    (CERES const, 17%Z);
    (PALLAS const, 18%Z);
    (JUNO const, 19%Z);
    (VESTA const, 20%Z)
  ].

(** Map house systems *)
Definition SWE_HOUSESYS : gmap string bytes :=
  dict_display [
    (HOUSES_PLACIDUS const, ["P"%byte]);
    (HOUSES_KOCH const, ["K"%byte]);
    (HOUSES_PORPHYRIUS const, ["O"%byte]);
    (HOUSES_REGIOMONTANUS const, ["R"%byte]);
    (HOUSES_CAMPANUS const, ["C"%byte]);
    (HOUSES_EQUAL const, ["A"%byte]);
    (HOUSES_EQUAL_2 const, ["E"%byte]);
    (HOUSES_VEHLOW_EQUAL const, ["V"%byte]);
    (HOUSES_WHOLE_SIGN const, ["W"%byte]);
    (HOUSES_MERIDIAN const, ["X"%byte]);
    (HOUSES_AZIMUTHAL const, ["H"%byte]);
    (HOUSES_POLICH_PAGE const, ["T"%byte]);
    (HOUSES_ALCABITUS const, ["B"%byte]);
    (HOUSES_MORINUS const, ["M"%byte])
  ].

(** *** Internal functions *)

(** [swisseph.set_ephe_path(path)]: records the call and stores the
    path in the engine. *)
Definition set_ephe_path (path : string) : Py unit :=
  fun w =>
    (Ok tt,
     {| ephe_path := Some path; trace := trace w ++ [SetEphePath path] |}).

(** Sets the path for the swe files. *)
Definition setPath (path : string) : Py unit :=
  set_ephe_path path.

(** *** Object functions *)

(** Returns an object from the Ephemeris. *)
Definition sweObject (obj : string) (jd : Q) (flags : Z) : Py object :=
  let* sweObj := lookup_key SWE_OBJECTS obj in
  let* _ := setPath (SE_PATH const) in
  let* (sweList, flg) :=
    invoke (CalcUt jd sweObj flags)
           (fun w => calc_ut swisseph w jd sweObj flags) in
  let* lon := getitem sweList 0 in
  let* lat := getitem sweList 1 in
  let* lonspeed := getitem sweList 3 in
  let* latspeed := getitem sweList 4 in
  ret {| object_id := obj;
         object_lon := lon;
         object_lat := lat;
         object_lonspeed := lonspeed;
         object_latspeed := latspeed;
         object_flg := flg |}.

(** Returns the longitude of an object. *)
Definition sweObjectLon (obj : string) (jd : Q) (flags : Z) : Py Q :=
  let* sweObj := lookup_key SWE_OBJECTS obj in
  let* (sweList, flg) :=
    invoke (CalcUt jd sweObj flags)
           (fun w => calc_ut swisseph w jd sweObj flags) in
  getitem sweList 0.

(** Returns the julian date of the next transit of an object.  The flag
    should be 'RISE' or 'SET'. *)
Definition sweNextTransit (obj : string) (jd lat lon : Q) (flag : string)
  : Py Q :=
  let* sweObj := lookup_key SWE_OBJECTS obj in
  let flag := if String.eqb flag "RISE" then CALC_RISE else CALC_SET in
  let* trans :=
    invoke (RiseTrans jd sweObj lon lat 0 0 0 flag)
           (fun w => rise_trans swisseph w jd sweObj lon lat 0 0 0 flag) in
  getitem (snd trans) 0.

(** *** Houses and angles *)

(** Returns lists of houses and angles. *)
Definition sweHouses (jd lat lon : Q) (hsys : string) (flags : Z)
  : Py (list house * list angle_rec) :=
  let* hsys := lookup_key SWE_HOUSESYS hsys in
  let* (hlist, ascmc) :=
    invoke (HousesEx jd lat lon hsys flags)
           (fun w => houses_ex swisseph w jd lat lon hsys flags) in
  (* Add first house to the end of 'hlist' so that we can compute house
     sizes with an iterator *)
  let* first := getitem hlist 0 in
  let hlist := hlist ++ [first] in
  let* houses :=
    comprehension
      (fun i =>
         let* id := getitem (LIST_HOUSES const) i in
         let* lon := getitem hlist i in
         let* a := getitem hlist i in
         let* b := getitem hlist (i + 1) in
         ret {| house_id := id;
                house_lon := lon;
                house_size := angle.distance a b |})
      (seq 0 12) in
  let* asc := getitem ascmc 0 in
  let* mc := getitem ascmc 1 in
  let* asc' := getitem ascmc 0 in
  let* mc' := getitem ascmc 1 in
  let angles :=
    [ {| angle_id := ASC const; angle_lon := asc |};
      {| angle_id := MC const; angle_lon := mc |};
      {| angle_id := DESC const; angle_lon := angle.norm (asc' + 180) |};
      {| angle_id := IC const; angle_lon := angle.norm (mc' + 180) |} ] in
  ret (houses, angles).

(** Returns lists with house and angle longitudes. *)
Definition sweHousesLon (jd lat lon : Q) (hsys : string) (flags : Z)
  : Py (list Q * list Q) :=
  let* hsys := lookup_key SWE_HOUSESYS hsys in
  let* (hlist, ascmc) :=
    invoke (HousesEx jd lat lon hsys flags)
           (fun w => houses_ex swisseph w jd lat lon hsys flags) in
  let* asc := getitem ascmc 0 in
  let* mc := getitem ascmc 1 in
  let* asc' := getitem ascmc 0 in
  let* mc' := getitem ascmc 1 in
  let angles :=
    [ asc; mc; angle.norm (asc' + 180); angle.norm (mc' + 180) ] in
  ret (hlist, angles).

(** *** Fixed stars *)

(** Returns a fixed star from the Ephemeris. *)
Definition sweFixedStar (star : string) (jd : Q) (flags : Z) : Py fixed_star :=
  let flag := 0%Z in
  let* (sweList, stnam, flg) :=
    invoke (Fixstar2Ut star jd flag)
           (fun w => fixstar2_ut swisseph w star jd flag) in
  let* mag :=
    invoke (Fixstar2Mag star) (fun w => fixstar2_mag swisseph w star) in
  let* lon := getitem sweList 0 in
  let* lat := getitem sweList 1 in
  ret {| star_id := star; star_mag := mag; star_lon := lon; star_lat := lat |}.

(** *** Eclipses *)

(** Returns the jd details of previous or next global solar eclipse. *)
Definition solarEclipseGlobal (jd : Q) (backward : bool) : Py solar_eclipse :=
  let* sweList :=
    invoke (SolEclipseWhenGlob jd backward)
           (fun w => sol_eclipse_when_glob swisseph w jd backward) in
  let* t0 := getitem (snd sweList) 0 in
  let* t2 := getitem (snd sweList) 2 in
  let* t3 := getitem (snd sweList) 3 in
  let* t4 := getitem (snd sweList) 4 in
  let* t5 := getitem (snd sweList) 5 in
  let* t6 := getitem (snd sweList) 6 in
  let* t7 := getitem (snd sweList) 7 in
  ret {| solar_maximum := t0;
         solar_begin := t2;
         solar_end := t3;
         solar_totality_begin := t4;
         solar_totality_end := t5;
         solar_center_line_begin := t6;
         solar_center_line_end := t7 |}.

(** Returns the jd details of previous or next global lunar eclipse. *)
Definition lunarEclipseGlobal (jd : Q) (backward : bool) : Py lunar_eclipse :=
  let* sweList :=
    invoke (LunEclipseWhen jd backward)
           (fun w => lun_eclipse_when swisseph w jd backward) in
  let* t0 := getitem (snd sweList) 0 in
  let* t2 := getitem (snd sweList) 2 in
  let* t3 := getitem (snd sweList) 3 in
  let* t4 := getitem (snd sweList) 4 in
  let* t5 := getitem (snd sweList) 5 in
  let* t6 := getitem (snd sweList) 6 in
  let* t7 := getitem (snd sweList) 7 in
  ret {| lunar_maximum := t0;
         lunar_partial_begin := t2;
         lunar_partial_end := t3;
         lunar_totality_begin := t4;
         lunar_totality_end := t5;
         lunar_penumbral_begin := t6;
         lunar_penumbral_end := t7 |}.

End Swe.

(** ** House sizes, as the houses query describes them *)

(** The forward distance from each cusp to the next one, the last cusp
    being followed by [first]. *)
Fixpoint circular_gaps (first : Q) (cusps : list Q) : list Q :=
  match cusps with
  | [] => []
  | a :: rest =>
      match rest with
      | [] => [angle.distance a first]
      | b :: _ => angle.distance a b :: circular_gaps first rest
      end
  end.

Definition Qsum (l : list Q) : Q := fold_right Qplus 0 l.

Fixpoint nondecreasing (l : list Q) : bool :=
  match l with
  | [] => true
  | a :: rest =>
      match rest with
      | [] => true
      | b :: _ => Qle_bool a b && nondecreasing rest
      end
  end.

(** The cusps advance around the circle from the first one without
    passing it again: their forward distances from the first cusp never
    decrease, and the last cusp is not at the first one. *)
Definition forward_order (cusps : list Q) : bool :=
  let offsets := map (angle.distance (hd 0 cusps)) cusps in
  nondecreasing offsets && negb (Qeq_bool (List.last offsets 0) 0).

(** ** A concrete setting for runs *)

(** A valuation of [flatlib.const]. *)
Definition sample_const : Const := {|
  SUN := "Sun"; MOON := "Moon"; MERCURY := "Mercury"; VENUS := "Venus";
  MARS := "Mars"; JUPITER := "Jupiter"; SATURN := "Saturn";
  URANUS := "Uranus"; NEPTUNE := "Neptune"; PLUTO := "Pluto";
  CHIRON := "Chiron"; NORTH_NODE := "North Node"; PHOLUS := "Pholus";
  CERES := "Ceres"; PALLAS := "Pallas"; JUNO := "Juno"; VESTA := "Vesta";
  HOUSES_PLACIDUS := "Placidus"; HOUSES_KOCH := "Koch";
  HOUSES_PORPHYRIUS := "Porphyrius";
  HOUSES_REGIOMONTANUS := "Regiomontanus";
  HOUSES_CAMPANUS := "Campanus"; HOUSES_EQUAL := "Equal";
  HOUSES_EQUAL_2 := "Equal 2"; HOUSES_VEHLOW_EQUAL := "Vehlow Equal";
  HOUSES_WHOLE_SIGN := "Whole Sign"; HOUSES_MERIDIAN := "Meridian";
  HOUSES_AZIMUTHAL := "Azimuthal"; HOUSES_POLICH_PAGE := "Polich Page";
  HOUSES_ALCABITUS := "Alcabitus"; HOUSES_MORINUS := "Morinus";
  LIST_HOUSES :=
    ["House1"; "House2"; "House3"; "House4"; "House5"; "House6";
     "House7"; "House8"; "House9"; "House10"; "House11"; "House12"];
  ASC := "Asc"; MC := "MC"; DESC := "Desc"; IC := "IC";
  SE_PATH := "/usr/share/ephe"
|}.

(** An engine that answers every call with the same data, whatever the
    arguments: [xx] for positions, [cusps] and [ascmc] for houses, [tret]
    for event times.  It needs the ephemeris path for body positions and
    names the star it resolved in catalogue form. *)
Definition table_engine (xx cusps ascmc tret : list Q) : Swisseph := {|
  calc_ut := fun w _ _ flags =>
    match ephe_path w with
    | Some _ => inr (xx, flags)
    | None => inl "SwissEph file not found"
    end;
  rise_trans := fun _ _ _ _ _ _ _ _ _ => inr (0%Z, tret);
  houses_ex := fun _ _ _ _ _ _ => inr (cusps, ascmc);
  fixstar2_ut := fun _ star _ flag => inr (xx, (star ++ ",alTau")%string, flag);
  fixstar2_mag := fun _ _ => inr (87 # 100);
  sol_eclipse_when_glob := fun _ _ _ => inr (4%Z, tret);
  lun_eclipse_when := fun _ _ _ => inr (4%Z, tret)
|}.

Definition fresh_world : World := {| ephe_path := None; trace := [] |}.

Definition whole_sign_cusps : list Q :=
  [210; 240; 270; 300; 330; 0; 30; 60; 90; 120; 150; 180].

Definition retrograde_cusps : list Q :=
  [330; 300; 270; 240; 210; 180; 150; 120; 90; 60; 30; 0].

Definition sample_xx : list Q := [2805 # 10; 1 # 10; 98 # 100; 102 # 100; 0; 0].

Definition sample_ascmc : list Q := [2235 # 10; 140; 1381 # 10; 30; 0; 0; 0; 0].

Definition sample_tret : list Q :=
  [2460409; 2460410; 2460408; 2460411; 2460412; 2460413; 2460414; 2460415;
   0; 0].

Definition sample_engine : Swisseph :=
  table_engine sample_xx whole_sign_cusps sample_ascmc sample_tret.

(** An engine on which every routine raises [msg]. *)
Definition failing_engine (msg : string) : Swisseph := {|
  calc_ut := fun _ _ _ _ => inl msg;
  rise_trans := fun _ _ _ _ _ _ _ _ _ => inl msg;
  houses_ex := fun _ _ _ _ _ _ => inl msg;
  fixstar2_ut := fun _ _ _ _ => inl msg;
  fixstar2_mag := fun _ _ => inl msg;
  sol_eclipse_when_glob := fun _ _ _ => inl msg;
  lun_eclipse_when := fun _ _ _ => inl msg
|}.

(** ** Effects of a computation on the engine *)

(** The computation reaches no engine routine: the state is left as it
    was. *)
Definition quiet {A : Type} (m : Py A) : Prop :=
  forall w : World, (m w).2 = w.

(** The computation may call the engine but leaves its ephemeris path as
    it was. *)
Definition keeps_path {A : Type} (m : Py A) : Prop :=
  forall w : World, ephe_path (m w).2 = ephe_path w.

Definition eleven_cusps : list Q :=
  [210; 240; 270; 300; 330; 0; 30; 60; 90; 120; 150].

(** * Properties *)

(** ** Concrete runs *)

Example norm_540 : angle.norm 540 == 180.
Proof. reflexivity. Qed.

Example norm_neg90 : angle.norm (-90) == 270.
Proof. reflexivity. Qed.

Example distance_350_10 : angle.distance 350 10 == 20.
Proof. reflexivity. Qed.

Example sweObject_sun :
  sweObject sample_const sample_engine "Sun" 2451545 0 fresh_world =
  (Ok {| object_id := "Sun"; object_lon := 2805 # 10; object_lat := 1 # 10;
         object_lonspeed := 102 # 100; object_latspeed := 0;
         object_flg := 0 |},
   {| ephe_path := Some "/usr/share/ephe";
      trace := [SetEphePath "/usr/share/ephe"; CalcUt 2451545 0 0] |}).
Proof. reflexivity. Qed.

(** The longitude-only variant reaches the engine with no path set. *)
Example sweObjectLon_sun :
  sweObjectLon sample_const sample_engine "Sun" 2451545 0 fresh_world =
  (Raise (SweError "SwissEph file not found"),
   {| ephe_path := None; trace := [CalcUt 2451545 0 0] |}).
Proof. reflexivity. Qed.

Example sweNextTransit_lowercase :
  sweNextTransit sample_const sample_engine "Sun" 2451545 40 (-8) "rise"
    fresh_world =
  (Ok 2460409,
   {| ephe_path := None;
      trace := [RiseTrans 2451545 0 (-8) 40 0 0 0 CALC_SET] |}).
Proof. reflexivity. Qed.

(** The engine's own star name is dropped. *)
Example sweFixedStar_aldebaran :
  sweFixedStar sample_engine "Aldebaran" 2451545 99 fresh_world =
  (Ok {| star_id := "Aldebaran"; star_mag := 87 # 100;
         star_lon := 2805 # 10; star_lat := 1 # 10 |},
   {| ephe_path := None;
      trace := [Fixstar2Ut "Aldebaran" 2451545 0; Fixstar2Mag "Aldebaran"] |}).
Proof. reflexivity. Qed.

(** Whole-sign houses are thirty degrees each. *)
Example whole_sign_sizes :
  match
    (sweHouses sample_const sample_engine 2451545 40 (-8) "Whole Sign" 0
       fresh_world).1
  with
  | Ok (houses, _) =>
      forallb (fun h => Qeq_bool (house_size h) 30) houses = true /\
      length houses = 12%nat
  | Raise _ => False
  end.
Proof. vm_compute. split; reflexivity. Qed.

(** ** Arithmetic of [norm] and [distance] *)

Lemma norm_floor_bounds (a : Q) :
  inject_Z (360 * Qfloor (a / 360)) <= a /\
  a < inject_Z (360 * Qfloor (a / 360)) + 360.
Proof.
  pose proof (Qfloor_le (a / 360)) as Hlo.
  pose proof (Qlt_floor (a / 360)) as Hhi.
  rewrite inject_Z_plus in Hhi.
  rewrite inject_Z_mult.
  assert (Ha : a == a / 360 * 360) by field.
  change (inject_Z 360) with 360.
  change (inject_Z 1) with 1 in Hhi.
  split; lra.
Qed.

Lemma norm_range (a : Q) : 0 <= angle.norm a /\ angle.norm a < 360.
Proof.
  unfold angle.norm. destruct (norm_floor_bounds a). split; lra.
Qed.

Lemma norm_congr (a : Q) :
  angle.norm a == a - 360 * inject_Z (Qfloor (a / 360)).
Proof.
  unfold angle.norm. rewrite inject_Z_mult. reflexivity.
Qed.

(** [norm a] is the only representative of [a] modulo 360 in [0,360). *)
Lemma norm_unique (a y : Q) (k : Z) :
  0 <= y -> y < 360 -> a == y + 360 * inject_Z k -> angle.norm a == y.
Proof.
  intros Hy0 Hy1 Ha.
  destruct (norm_floor_bounds a) as [Hlo Hhi].
  rewrite inject_Z_mult in Hlo, Hhi.
  change (inject_Z 360) with 360 in Hlo, Hhi.
  assert (Hfk : Qfloor (a / 360) = k).
  { apply Z.le_antisymm.
    - apply Z.lt_succ_r. rewrite Zlt_Qlt. unfold Z.succ.
      rewrite inject_Z_plus. change (inject_Z 1) with 1. lra.
    - apply Z.lt_succ_r. rewrite Zlt_Qlt. unfold Z.succ.
      rewrite inject_Z_plus. change (inject_Z 1) with 1. lra. }
  rewrite norm_congr, Hfk. lra.
Qed.

Lemma distance_range (a b : Q) :
  0 <= angle.distance a b /\ angle.distance a b < 360.
Proof. apply norm_range. Qed.

Lemma distance_congr (a b : Q) :
  exists k : Z, angle.distance a b == b - a - 360 * inject_Z k.
Proof.
  exists (Qfloor ((b - a) / 360)). apply norm_congr.
Qed.

Lemma distance_self (a : Q) : angle.distance a a == 0.
Proof.
  unfold angle.distance. apply (norm_unique _ 0 0); [lra | lra |].
  change (inject_Z 0) with 0. lra.
Qed.

(** Between two cusps met in this order on the way round from [o], the
    forward distance is the difference of their distances from [o]. *)
Lemma distance_offsets (o a b : Q) :
  angle.distance o a <= angle.distance o b ->
  angle.distance a b == angle.distance o b - angle.distance o a.
Proof.
  intros Hle.
  destruct (distance_congr o a) as [ka Ha].
  destruct (distance_congr o b) as [kb Hb].
  destruct (distance_range o a) as [Ha0 Ha1].
  destruct (distance_range o b) as [Hb0 Hb1].
  unfold angle.distance at 1.
  apply (norm_unique _ _ (kb - ka)); try lra.
  unfold Zminus. rewrite inject_Z_plus, inject_Z_opp. lra.
Qed.

(** From a cusp away from [o] back to [o] is the rest of the circle. *)
Lemma distance_back (o a : Q) :
  0 < angle.distance o a ->
  angle.distance a o == 360 - angle.distance o a.
Proof.
  intros Hpos.
  destruct (distance_congr o a) as [ka Ha].
  destruct (distance_range o a) as [Ha0 Ha1].
  unfold angle.distance at 1.
  apply (norm_unique _ _ (- ka - 1)); try lra.
  unfold Zminus. rewrite inject_Z_plus, !inject_Z_opp.
  change (inject_Z 1) with 1. lra.
Qed.

(** ** House sizes around the circle *)

Lemma circular_gaps_length (first : Q) (l : list Q) :
  length (circular_gaps first l) = length l.
Proof.
  induction l as [|a [|b t] IH]; cbn [circular_gaps length] in *;
    congruence.
Qed.

Lemma circular_gaps_range (first : Q) (l : list Q) :
  Forall (fun s => 0 <= s /\ s < 360) (circular_gaps first l).
Proof.
  induction l as [|a [|b t] IH]; cbn [circular_gaps] in *.
  - constructor.
  - constructor; [apply distance_range | constructor].
  - constructor; [apply distance_range | exact IH].
Qed.

Lemma Qsum_range (l : list Q) :
  Forall (fun s => 0 <= s /\ s < 360) l ->
  0 <= Qsum l /\
  (l <> [] -> Qsum l < 360 * inject_Z (Z.of_nat (length l))).
Proof.
  induction 1 as [|s l [Hs0 Hs1] Hl [IH0 IH1]]; cbn [Qsum fold_right length].
  - split; [lra | congruence].
  - fold (Qsum l). split; [lra | intros _].
    rewrite Nat2Z.inj_succ. unfold Z.succ.
    rewrite inject_Z_plus. change (inject_Z 1) with 1.
    destruct l as [|s' l'].
    + cbn [Qsum fold_right length].
      change (inject_Z (Z.of_nat 0)) with 0. lra.
    + assert (Hne : s' :: l' <> []) by congruence.
      specialize (IH1 Hne). lra.
Qed.

(** The sizes add up to the way from the first cusp of the run back to
    [first], up to whole turns. *)
Lemma circular_gaps_sum_congr (first : Q) (l : list Q) (a : Q) :
  exists k : Z,
    Qsum (circular_gaps first (a :: l)) == first - a - 360 * inject_Z k.
Proof.
  revert a. induction l as [|b t IH]; intros a.
  - destruct (distance_congr a first) as [k Hk]. exists k.
    cbn [circular_gaps Qsum fold_right]. lra.
  - destruct (distance_congr a b) as [k Hk].
    destruct (IH b) as [k' Hk']. exists (k + k')%Z.
    change (circular_gaps first (a :: b :: t))
      with (angle.distance a b :: circular_gaps first (b :: t)).
    cbn [Qsum fold_right]. fold (Qsum (circular_gaps first (b :: t))).
    rewrite inject_Z_plus. lra.
Qed.

(** Closing the circle on its own first cusp gives whole turns only. *)
Lemma circular_gaps_turns (a : Q) (l : list Q) :
  exists k : Z,
    (0 <= k < Z.of_nat (length (a :: l)))%Z /\
    Qsum (circular_gaps a (a :: l)) == 360 * inject_Z k.
Proof.
  destruct (circular_gaps_sum_congr a l a) as [k Hk].
  destruct (Qsum_range _ (circular_gaps_range a (a :: l))) as [H0 H1].
  assert (Hne : circular_gaps a (a :: l) <> []).
  { intros E. apply (f_equal (@length Q)) in E.
    rewrite circular_gaps_length in E. discriminate E. }
  specialize (H1 Hne). rewrite circular_gaps_length in H1.
  exists (- k)%Z. split.
  - split.
    + apply Z.lt_pred_le. rewrite Zlt_Qlt. unfold Z.pred.
      rewrite inject_Z_plus, inject_Z_opp.
      change (inject_Z 0) with 0. change (inject_Z (-1)) with (-1). lra.
    + rewrite Zlt_Qlt, inject_Z_opp. lra.
  - rewrite inject_Z_opp. lra.
Qed.

Lemma circular_gaps_sum_ordered (first : Q) (l : list Q) (a : Q) :
  nondecreasing (map (angle.distance first) (a :: l)) = true ->
  0 < List.last (map (angle.distance first) (a :: l)) 0 ->
  Qsum (circular_gaps first (a :: l)) == 360 - angle.distance first a.
Proof.
  revert a. induction l as [|b t IH]; intros a Hsorted Hlast.
  - cbn [circular_gaps Qsum fold_right map List.last] in *.
    rewrite (distance_back first a Hlast). lra.
  - change (circular_gaps first (a :: b :: t))
      with (angle.distance a b :: circular_gaps first (b :: t)).
    cbn [Qsum fold_right]. fold (Qsum (circular_gaps first (b :: t))).
    change (map (angle.distance first) (a :: b :: t))
      with (angle.distance first a :: map (angle.distance first) (b :: t))
      in Hsorted, Hlast.
    change (map (angle.distance first) (b :: t))
      with (angle.distance first b :: map (angle.distance first) t)
      in Hsorted at 1.
    cbn [nondecreasing] in Hsorted.
    apply andb_prop in Hsorted as [Hab Hrest].
    apply Qle_bool_iff in Hab.
    rewrite IH.
    + rewrite (distance_offsets first a b Hab). lra.
    + exact Hrest.
    + exact Hlast.
Qed.

(** In forward order the sizes make exactly one turn. *)
Lemma circular_gaps_one_turn (a : Q) (l : list Q) :
  forward_order (a :: l) = true ->
  Qsum (circular_gaps a (a :: l)) == 360.
Proof.
  unfold forward_order. cbn [hd]. intros H.
  apply andb_prop in H as [Hsorted Hlast].
  rewrite circular_gaps_sum_ordered.
  - rewrite distance_self. lra.
  - exact Hsorted.
  - apply negb_true_iff in Hlast.
    assert (Hne : ~ List.last (map (angle.distance a) (a :: l)) 0 == 0).
    { intros E. apply Qeq_bool_iff in E. congruence. }
    assert (H0 : 0 <= List.last (map (angle.distance a) (a :: l)) 0).
    { generalize (a :: l). intros m. induction m as [|x [|y m'] IHm].
      - cbn. lra.
      - cbn [map List.last]. apply distance_range.
      - exact IHm. }
    lra.
Qed.

(** ** Running the adapter *)

Ltac run_py :=
  unfold bind, lookup_key, setPath, set_ephe_path, invoke, getitem, ret, raise.

Lemma calls_of_one (t : list call) (c : call) :
  drop (length t) (t ++ [c]) = [c].
Proof. apply drop_app_length. Qed.

Lemma calls_of_two (t : list call) (c1 c2 : call) :
  drop (length t) ((t ++ [c1]) ++ [c2]) = [c1; c2].
Proof. rewrite <- app_assoc. apply drop_app_length. Qed.

Lemma calls_of_none (t : list call) : drop (length t) t = [].
Proof. apply drop_all. Qed.

(** Case analysis on what the engine answers and on whether an index is
    in range, innermost first. *)
Ltac split_answers :=
  repeat (cbn [fst snd];
          match goal with
          | |- context [match ?x with _ => _ end] =>
              lazymatch x with
              | context [match _ with _ => _ end] => fail
              | _ => destruct x
              end
          end).

Ltac count_calls :=
  cbn [fst snd trace ephe_path];
  rewrite ?calls_of_two, ?calls_of_one, ?calls_of_none.

Section SweProperties.

Variable const : Const.
Variable swisseph : Swisseph.

(** C3. An identifier missing from its table makes each of the five
    translating operations raise [KeyError] on that identifier, and the
    state of the engine, with the record of the calls made to it, is the
    one the operation started in: no engine routine was reached. *)
Theorem unmapped_identifier_raises_before_engine
    (obj hsys flag : string) (jd lat lon : Q) (flags : Z) (w : World) :
  SWE_OBJECTS const !! obj = None ->
  SWE_HOUSESYS const !! hsys = None ->
  sweObject const swisseph obj jd flags w = (Raise (KeyError obj), w) /\
  sweObjectLon const swisseph obj jd flags w = (Raise (KeyError obj), w) /\
  sweNextTransit const swisseph obj jd lat lon flag w
    = (Raise (KeyError obj), w) /\
  sweHouses const swisseph jd lat lon hsys flags w
    = (Raise (KeyError hsys), w) /\
  sweHousesLon const swisseph jd lat lon hsys flags w
    = (Raise (KeyError hsys), w) /\
  calls_of (sweObject const swisseph obj jd flags) w = [] /\
  calls_of (sweObjectLon const swisseph obj jd flags) w = [] /\
  calls_of (sweNextTransit const swisseph obj jd lat lon flag) w = [] /\
  calls_of (sweHouses const swisseph jd lat lon hsys flags) w = [] /\
  calls_of (sweHousesLon const swisseph jd lat lon hsys flags) w = [].
Proof.
  intros Hobj Hsys.
  unfold calls_of, sweObject, sweObjectLon, sweNextTransit, sweHouses,
    sweHousesLon.
  run_py. rewrite Hobj, Hsys. cbn [snd fst].
  rewrite calls_of_none. repeat split.
Qed.

(** C4. For a mapped body, [sweNextTransit] makes one engine call, the
    rise/transit search, and its mode is the rise mode exactly when the
    flag is the string "RISE" and the set mode otherwise; two flags other
    than "RISE" give the same run. *)
Theorem sweNextTransit_selects_mode
    (obj flag other : string) (jd lat lon : Q) (w : World) (body : Z) :
  SWE_OBJECTS const !! obj = Some body ->
  (exists mode : rsmi,
     calls_of (sweNextTransit const swisseph obj jd lat lon flag) w
       = [RiseTrans jd body lon lat 0 0 0 mode] /\
     (mode = CALC_RISE <-> flag = "RISE") /\
     (mode = CALC_SET <-> flag <> "RISE")) /\
  calls_of (sweNextTransit const swisseph obj jd lat lon "SET") w
    = [RiseTrans jd body lon lat 0 0 0 CALC_SET] /\
  (flag <> "RISE" -> other <> "RISE" ->
   sweNextTransit const swisseph obj jd lat lon flag w
     = sweNextTransit const swisseph obj jd lat lon other w).
Proof.
  intros Hobj. split; [|split].
  - exists (if String.eqb flag "RISE" then CALC_RISE else CALC_SET). split.
    + unfold calls_of, sweNextTransit. run_py. rewrite Hobj.
      split_answers; count_calls; reflexivity.
    + destruct (String.eqb_spec flag "RISE") as [E|E]; split; split;
        congruence.
  - unfold calls_of, sweNextTransit. run_py. rewrite Hobj.
    cbn [String.eqb Ascii.eqb Bool.eqb].
    split_answers; count_calls; reflexivity.
  - intros Hflag Hother. unfold sweNextTransit.
    apply String.eqb_neq in Hflag, Hother. rewrite Hflag, Hother.
    reflexivity.
Qed.

(** C5. [sweFixedStar] gives the same run for any two values of its
    flags argument, and the flag it hands to the engine's fixed-star
    routine is zero. *)
Theorem sweFixedStar_ignores_flags
    (star : string) (jd : Q) (flags flags' : Z) (w : World) :
  sweFixedStar swisseph star jd flags w
    = sweFixedStar swisseph star jd flags' w /\
  exists rest : list call,
    calls_of (sweFixedStar swisseph star jd flags) w
      = Fixstar2Ut star jd 0 :: rest.
Proof.
  split; [reflexivity|].
  unfold calls_of, sweFixedStar. run_py.
  split_answers; count_calls; eexists; reflexivity.
Qed.

(** C6. For a mapped body, [sweObject] first sets the engine's ephemeris
    path to the configured [SE_PATH] and then calls the position routine;
    [sweObjectLon] makes the same position call and nothing else, leaving
    the engine's path as it was. *)
Theorem sweObject_sets_path_sweObjectLon_does_not
    (obj : string) (jd : Q) (flags : Z) (w : World) (body : Z) :
  SWE_OBJECTS const !! obj = Some body ->
  calls_of (sweObject const swisseph obj jd flags) w
    = [SetEphePath (SE_PATH const); CalcUt jd body flags] /\
  ephe_path (sweObject const swisseph obj jd flags w).2
    = Some (SE_PATH const) /\
  calls_of (sweObjectLon const swisseph obj jd flags) w
    = [CalcUt jd body flags] /\
  ephe_path (sweObjectLon const swisseph obj jd flags w).2 = ephe_path w.
Proof.
  intros Hobj.
  unfold calls_of, sweObject, sweObjectLon. run_py. rewrite Hobj.
  repeat split; split_answers; count_calls; reflexivity.
Qed.

(** C7. For a mapped body, when the position routine answers a tuple of
    at least five numbers and its status flags, [sweObject] returns the
    record with the caller's identifier, elements 0, 1, 3 and 4 of the
    tuple as longitude, latitude, longitude speed and latitude speed
    (element 2 is not used), and those status flags. *)
Theorem sweObject_fields
    (obj : string) (jd : Q) (flags : Z) (w : World) (body : Z)
    (xx : list Q) (flg : Z) :
  SWE_OBJECTS const !! obj = Some body ->
  calc_ut swisseph
    {| ephe_path := Some (SE_PATH const);
       trace := trace w ++ [SetEphePath (SE_PATH const)] |}
    jd body flags = inr (xx, flg) ->
  (5 <= length xx)%nat ->
  (sweObject const swisseph obj jd flags w).1 =
  Ok {| object_id := obj;
        object_lon := nth 0 xx 0;
        object_lat := nth 1 xx 0;
        object_lonspeed := nth 3 xx 0;
        object_latspeed := nth 4 xx 0;
        object_flg := flg |}.
Proof.
  intros Hobj Hans Hlen.
  destruct xx as [|x0 [|x1 [|x2 [|x3 [|x4 rest]]]]];
    cbn [length] in Hlen; try lia.
  unfold sweObject. run_py. rewrite Hobj. cbn [trace ephe_path].
  rewrite Hans. reflexivity.
Qed.

(** C9. When the engine's eclipse search answers a timing tuple of at
    least eight instants, [solarEclipseGlobal] and [lunarEclipseGlobal]
    each return the seven-field record holding elements 0, 2, 3, 4, 5, 6
    and 7 of that tuple, unchanged and in this order of fields; element 1
    and the search's return flag are not used, and the one engine call
    made is the search itself. *)
Theorem eclipse_records_relabel
    (jd : Q) (backward : bool) (w : World)
    (sflag lflag : Z) (stret ltret : list Q) :
  sol_eclipse_when_glob swisseph w jd backward = inr (sflag, stret) ->
  lun_eclipse_when swisseph w jd backward = inr (lflag, ltret) ->
  (8 <= length stret)%nat ->
  (8 <= length ltret)%nat ->
  solarEclipseGlobal swisseph jd backward w =
  (Ok {| solar_maximum := nth 0 stret 0;
         solar_begin := nth 2 stret 0;
         solar_end := nth 3 stret 0;
         solar_totality_begin := nth 4 stret 0;
         solar_totality_end := nth 5 stret 0;
         solar_center_line_begin := nth 6 stret 0;
         solar_center_line_end := nth 7 stret 0 |},
   {| ephe_path := ephe_path w;
      trace := trace w ++ [SolEclipseWhenGlob jd backward] |}) /\
  lunarEclipseGlobal swisseph jd backward w =
  (Ok {| lunar_maximum := nth 0 ltret 0;
         lunar_partial_begin := nth 2 ltret 0;
         lunar_partial_end := nth 3 ltret 0;
         lunar_totality_begin := nth 4 ltret 0;
         lunar_totality_end := nth 5 ltret 0;
         lunar_penumbral_begin := nth 6 ltret 0;
         lunar_penumbral_end := nth 7 ltret 0 |},
   {| ephe_path := ephe_path w;
      trace := trace w ++ [LunEclipseWhen jd backward] |}).
Proof.
  intros Hsol Hlun Hs Hl.
  destruct stret as [|s0 [|s1 [|s2 [|s3 [|s4 [|s5 [|s6 [|s7 srest]]]]]]]];
    cbn [length] in Hs; try lia.
  destruct ltret as [|l0 [|l1 [|l2 [|l3 [|l4 [|l5 [|l6 [|l7 lrest]]]]]]]];
    cbn [length] in Hl; try lia.
  unfold solarEclipseGlobal, lunarEclipseGlobal. run_py.
  rewrite Hsol, Hlun. split; reflexivity.
Qed.

(** When both star routines answer, [sweFixedStar] returns the record of
    the caller's star, its magnitude and elements 0 and 1 of the position
    tuple; the resolved name [stnam] and the flags are dropped. *)
Lemma sweFixedStar_fields
    (star : string) (jd : Q) (flags : Z) (w : World)
    (xx : list Q) (stnam : string) (flg : Z) (mag : Q) :
  fixstar2_ut swisseph w star jd 0 = inr (xx, stnam, flg) ->
  fixstar2_mag swisseph
    {| ephe_path := ephe_path w;
       trace := trace w ++ [Fixstar2Ut star jd 0] |} star = inr mag ->
  (2 <= length xx)%nat ->
  (sweFixedStar swisseph star jd flags w).1 =
  Ok {| star_id := star; star_mag := mag;
        star_lon := nth 0 xx 0; star_lat := nth 1 xx 0 |}.
Proof.
  intros Hpos Hmag Hlen.
  destruct xx as [|x0 [|x1 more]]; cbn [length] in Hlen; try lia.
  unfold sweFixedStar. run_py. rewrite Hpos. cbn [fst snd]. rewrite Hmag.
  reflexivity.
Qed.

(** C10. Whatever the engine answers, a record returned by [sweObject]
    carries the caller's body identifier as its id, and a record returned
    by [sweFixedStar] carries the caller's star argument as its id, not
    the star name the engine resolved. *)
Theorem returned_id_is_the_argument
    (obj star : string) (jd : Q) (flags : Z) (w : World) :
  match (sweObject const swisseph obj jd flags w).1 with
  | Ok r => object_id r = obj
  | Raise _ => True
  end /\
  match (sweFixedStar swisseph star jd flags w).1 with
  | Ok r => star_id r = star
  | Raise _ => True
  end.
Proof.
  unfold sweObject, sweFixedStar. run_py.
  split; split_answers; cbn [fst]; exact I || reflexivity.
Qed.

(** *** Houses and angles *)

(** The run of [sweHouses] on twelve cusps. *)
Lemma sweHouses_run
    (jd lat lon : Q) (hsys : string) (flags : Z) (w : World)
    (code : bytes) (hlist : list Q) (asc mc : Q) (rest : list Q) :
  SWE_HOUSESYS const !! hsys = Some code ->
  houses_ex swisseph w jd lat lon code flags
    = inr (hlist, asc :: mc :: rest) ->
  length hlist = 12%nat ->
  (12 <= length (LIST_HOUSES const))%nat ->
  exists houses : list house,
    sweHouses const swisseph jd lat lon hsys flags w =
    (Ok (houses,
         [ {| angle_id := ASC const; angle_lon := asc |};
           {| angle_id := MC const; angle_lon := mc |};
           {| angle_id := DESC const; angle_lon := angle.norm (asc + 180) |};
           {| angle_id := IC const; angle_lon := angle.norm (mc + 180) |} ]),
     {| ephe_path := ephe_path w;
        trace := trace w ++ [HousesEx jd lat lon code flags] |}) /\
    map house_id houses = take 12 (LIST_HOUSES const) /\
    map house_lon houses = hlist /\
    map house_size houses = circular_gaps (hd 0 hlist) hlist.
Proof.
  intros Hsys Hans Hlen Hnames.
  destruct hlist
    as [|h1 [|h2 [|h3 [|h4 [|h5 [|h6 [|h7 [|h8 [|h9 [|h10 [|h11 [|h12
        [|h13 more]]]]]]]]]]]]]; try discriminate Hlen.
  unfold sweHouses. run_py. rewrite Hsys. cbn [fst snd]. rewrite Hans.
  destruct (LIST_HOUSES const)
    as [|n1 [|n2 [|n3 [|n4 [|n5 [|n6 [|n7 [|n8 [|n9 [|n10 [|n11 [|n12
        names]]]]]]]]]]]]; cbn [length] in Hnames; try lia.
  eexists. split; [reflexivity|]. repeat split.
Qed.

(** The run of [sweHousesLon]. *)
Lemma sweHousesLon_run
    (jd lat lon : Q) (hsys : string) (flags : Z) (w : World)
    (code : bytes) (hlist : list Q) (asc mc : Q) (rest : list Q) :
  SWE_HOUSESYS const !! hsys = Some code ->
  houses_ex swisseph w jd lat lon code flags
    = inr (hlist, asc :: mc :: rest) ->
  sweHousesLon const swisseph jd lat lon hsys flags w =
  (Ok (hlist, [asc; mc; angle.norm (asc + 180); angle.norm (mc + 180)]),
   {| ephe_path := ephe_path w;
      trace := trace w ++ [HousesEx jd lat lon code flags] |}).
Proof.
  intros Hsys Hans.
  unfold sweHousesLon. run_py. rewrite Hsys. cbn [fst snd]. rewrite Hans.
  reflexivity.
Qed.

(** C1 (as amended). On twelve cusps from the engine, [sweHouses]
    returns twelve houses; the size of house [i] is the forward distance
    from cusp [i] to the next cusp, the twelfth house being followed by
    the first cusp.  Every size is in [0,360), and the sizes add up to a
    whole number of turns, from none to eleven.  They add up to exactly
    360 when the cusps are in forward order around the circle. *)
Theorem sweHouses_sizes
    (jd lat lon : Q) (hsys : string) (flags : Z) (w : World)
    (code : bytes) (hlist : list Q) (asc mc : Q) (rest : list Q) :
  SWE_HOUSESYS const !! hsys = Some code ->
  houses_ex swisseph w jd lat lon code flags
    = inr (hlist, asc :: mc :: rest) ->
  length hlist = 12%nat ->
  (12 <= length (LIST_HOUSES const))%nat ->
  exists (houses : list house) (angles : list angle_rec) (w' : World),
    sweHouses const swisseph jd lat lon hsys flags w
      = (Ok (houses, angles), w') /\
    length houses = 12%nat /\
    (forall i : nat, (i < 12)%nat ->
       nth i (map house_size houses) 0
         = angle.distance (nth i hlist 0) (nth ((i + 1) mod 12) hlist 0)) /\
    Forall (fun h => 0 <= house_size h /\ house_size h < 360) houses /\
    (exists k : Z,
       (0 <= k < 12)%Z /\
       Qsum (map house_size houses) == 360 * inject_Z k) /\
    (forward_order hlist = true -> Qsum (map house_size houses) == 360).
Proof.
  intros Hsys Hans Hlen Hnames.
  destruct (sweHouses_run jd lat lon hsys flags w code hlist asc mc rest
              Hsys Hans Hlen Hnames)
    as (houses & Hrun & _ & Hlons & Hsizes).
  exists houses. eexists. eexists. split; [exact Hrun|].
  assert (Hn : length houses = 12%nat).
  { rewrite <- (length_map house_lon houses), Hlons. exact Hlen. }
  split; [exact Hn|]. rewrite Hsizes.
  destruct hlist as [|h1 t]; [discriminate Hlen|]. cbn [hd].
  split; [|split; [|split]].
  - destruct t
      as [|h2 [|h3 [|h4 [|h5 [|h6 [|h7 [|h8 [|h9 [|h10 [|h11 [|h12
          [|h13 more]]]]]]]]]]]]; try discriminate Hlen.
    intros i Hi.
    do 12 (destruct i as [|i]; [reflexivity|]). lia.
  - apply (proj1 (List.Forall_map house_size
                     (fun s => 0 <= s /\ s < 360) houses)).
    rewrite Hsizes. apply circular_gaps_range.
  - destruct (circular_gaps_turns h1 t) as (k & Hk & Hsum).
    rewrite Hlen in Hk. exists k. split; [exact Hk | exact Hsum].
  - apply circular_gaps_one_turn.
Qed.

(** C2. On twelve cusps and the angles [asc], [mc], ... from the engine,
    [sweHouses] returns the four angle records Ascendant, Midheaven,
    Descendant, Imum Coeli in this order and [sweHousesLon] the four
    longitudes in the same order; the Descendant is [asc + 180] and the
    Imum Coeli [mc + 180], each brought into [0,360) by whole turns. *)
Theorem opposite_angles
    (jd lat lon : Q) (hsys : string) (flags : Z) (w : World)
    (code : bytes) (hlist : list Q) (asc mc : Q) (rest : list Q) :
  SWE_HOUSESYS const !! hsys = Some code ->
  houses_ex swisseph w jd lat lon code flags
    = inr (hlist, asc :: mc :: rest) ->
  length hlist = 12%nat ->
  (12 <= length (LIST_HOUSES const))%nat ->
  exists (houses : list house) (w' : World) (desc ic : Q),
    sweHouses const swisseph jd lat lon hsys flags w =
    (Ok (houses,
         [ {| angle_id := ASC const; angle_lon := asc |};
           {| angle_id := MC const; angle_lon := mc |};
           {| angle_id := DESC const; angle_lon := desc |};
           {| angle_id := IC const; angle_lon := ic |} ]), w') /\
    sweHousesLon const swisseph jd lat lon hsys flags w
      = (Ok (hlist, [asc; mc; desc; ic]), w') /\
    desc = angle.norm (asc + 180) /\
    ic = angle.norm (mc + 180) /\
    (0 <= desc /\ desc < 360 /\
     exists k : Z, desc == asc + 180 - 360 * inject_Z k) /\
    (0 <= ic /\ ic < 360 /\
     exists k : Z, ic == mc + 180 - 360 * inject_Z k).
Proof.
  intros Hsys Hans Hlen Hnames.
  destruct (sweHouses_run jd lat lon hsys flags w code hlist asc mc rest
              Hsys Hans Hlen Hnames) as (houses & Hrun & _).
  exists houses. eexists. exists (angle.norm (asc + 180)).
  exists (angle.norm (mc + 180)).
  split; [exact Hrun|].
  split; [exact (sweHousesLon_run jd lat lon hsys flags w code hlist asc mc
                   rest Hsys Hans)|].
  split; [reflexivity|]. split; [reflexivity|].
  split.
  - destruct (norm_range (asc + 180)) as [H0 H1].
    split; [exact H0|]. split; [exact H1|].
    eexists. apply norm_congr.
  - destruct (norm_range (mc + 180)) as [H0 H1].
    split; [exact H0|]. split; [exact H1|].
    eexists. apply norm_congr.
Qed.

(** C8. From the same state, with the same arguments and the same answer
    of the engine (twelve cusps, and angles starting with the Ascendant
    and the Midheaven), the cusps [sweHousesLon] returns are the [lon]
    fields of the houses [sweHouses] returns, and its four angle
    longitudes are the [lon] fields of the four angle records, in order;
    both leave the engine in the same state. *)
Theorem sweHousesLon_matches_sweHouses
    (jd lat lon : Q) (hsys : string) (flags : Z) (w : World)
    (code : bytes) (hlist : list Q) (asc mc : Q) (rest : list Q) :
  SWE_HOUSESYS const !! hsys = Some code ->
  houses_ex swisseph w jd lat lon code flags
    = inr (hlist, asc :: mc :: rest) ->
  length hlist = 12%nat ->
  (12 <= length (LIST_HOUSES const))%nat ->
  exists (houses : list house) (angles : list angle_rec)
         (cusps lons : list Q) (w' : World),
    sweHouses const swisseph jd lat lon hsys flags w
      = (Ok (houses, angles), w') /\
    sweHousesLon const swisseph jd lat lon hsys flags w
      = (Ok (cusps, lons), w') /\
    map house_lon houses = cusps /\
    map angle_lon angles = lons /\
    length cusps = 12%nat /\
    length lons = 4%nat.
Proof.
  intros Hsys Hans Hlen Hnames.
  destruct (sweHouses_run jd lat lon hsys flags w code hlist asc mc rest
              Hsys Hans Hlen Hnames) as (houses & Hrun & _ & Hlons & _).
  exists houses. eexists. exists hlist. eexists. eexists.
  split; [exact Hrun|].
  split; [exact (sweHousesLon_run jd lat lon hsys flags w code hlist asc mc
                   rest Hsys Hans)|].
  split; [exact Hlons|]. split; [reflexivity|]. split; [exact Hlen|].
  reflexivity.
Qed.

End SweProperties.

(** ** Instances on the sample engine *)

Lemma unmapped_identifier_lilith :
  SWE_OBJECTS sample_const !! "Lilith" = None /\
  SWE_HOUSESYS sample_const !! "Topocentric" = None /\
  sweObject sample_const sample_engine "Lilith" 2451545 0 fresh_world
    = (Raise (KeyError "Lilith"), fresh_world) /\
  sweHousesLon sample_const sample_engine 2451545 40 (-8) "Topocentric" 0
    fresh_world = (Raise (KeyError "Topocentric"), fresh_world).
Proof.
  split; [reflexivity|]. split; [reflexivity|].
  destruct (unmapped_identifier_raises_before_engine sample_const
              sample_engine "Lilith" "Topocentric" "RISE" 2451545 40 (-8) 0
              fresh_world eq_refl eq_refl)
    as (Hobj & _ & _ & _ & Hlon & _).
  split; [exact Hobj | exact Hlon].
Defined.

Lemma sweNextTransit_mode_sun :
  SWE_OBJECTS sample_const !! "Sun" = Some 0%Z /\
  calls_of
    (sweNextTransit sample_const sample_engine "Sun" 2451545 40 (-8) "SET")
    fresh_world = [RiseTrans 2451545 0 (-8) 40 0 0 0 CALC_SET] /\
  sweNextTransit sample_const sample_engine "Sun" 2451545 40 (-8) "rise"
    fresh_world
  = sweNextTransit sample_const sample_engine "Sun" 2451545 40 (-8) "SET"
      fresh_world.
Proof.
  split; [reflexivity|].
  destruct (sweNextTransit_selects_mode sample_const sample_engine "Sun"
              "rise" "SET" 2451545 40 (-8) fresh_world 0%Z eq_refl)
    as (_ & Hset & Hsame).
  split; [exact Hset|].
  apply Hsame; discriminate.
Defined.

Lemma sweObject_path_sun :
  SWE_OBJECTS sample_const !! "Sun" = Some 0%Z /\
  calls_of (sweObject sample_const sample_engine "Sun" 2451545 0) fresh_world
    = [SetEphePath "/usr/share/ephe"; CalcUt 2451545 0 0] /\
  calls_of (sweObjectLon sample_const sample_engine "Sun" 2451545 0)
    fresh_world = [CalcUt 2451545 0 0].
Proof.
  split; [reflexivity|].
  destruct (sweObject_sets_path_sweObjectLon_does_not sample_const
              sample_engine "Sun" 2451545 0 fresh_world 0%Z eq_refl)
    as (Hfull & _ & Hlon & _).
  split; [exact Hfull | exact Hlon].
Defined.

Lemma sweObject_fields_sun :
  SWE_OBJECTS sample_const !! "Sun" = Some 0%Z /\
  (5 <= length sample_xx)%nat /\
  (sweObject sample_const sample_engine "Sun" 2451545 0 fresh_world).1 =
  Ok {| object_id := "Sun"; object_lon := 2805 # 10; object_lat := 1 # 10;
        object_lonspeed := 102 # 100; object_latspeed := 0;
        object_flg := 0 |}.
Proof.
  split; [reflexivity|]. split; [cbn; lia|].
  apply (sweObject_fields sample_const sample_engine "Sun" 2451545 0
           fresh_world 0%Z sample_xx 0%Z eq_refl eq_refl).
  cbn. lia.
Defined.

Lemma eclipse_records_sample :
  (8 <= length sample_tret)%nat /\
  solar_maximum
    <$> (match (solarEclipseGlobal sample_engine 2451545 true fresh_world).1
         with Ok r => Some r | Raise _ => None end) = Some 2460409 /\
  lunar_partial_begin
    <$> (match (lunarEclipseGlobal sample_engine 2451545 true fresh_world).1
         with Ok r => Some r | Raise _ => None end) = Some 2460408.
Proof.
  split; [cbn; lia|].
  destruct (eclipse_records_relabel sample_engine 2451545 true fresh_world
              4%Z 4%Z sample_tret sample_tret eq_refl eq_refl)
    as [Hsol Hlun]; try (cbn; lia).
  rewrite Hsol, Hlun. split; reflexivity.
Defined.

Lemma sweHouses_sizes_whole_sign :
  SWE_HOUSESYS sample_const !! "Whole Sign" = Some ["W"%byte] /\
  length whole_sign_cusps = 12%nat /\
  forward_order whole_sign_cusps = true /\
  exists (houses : list house) (angles : list angle_rec) (w' : World),
    sweHouses sample_const sample_engine 2451545 40 (-8) "Whole Sign" 0
      fresh_world = (Ok (houses, angles), w') /\
    Qsum (map house_size houses) == 360.
Proof.
  split; [reflexivity|]. split; [reflexivity|]. split; [reflexivity|].
  destruct (sweHouses_sizes sample_const sample_engine 2451545 40 (-8)
              "Whole Sign" 0 fresh_world ["W"%byte] whole_sign_cusps
              (2235 # 10) 140 [1381 # 10; 30; 0; 0; 0; 0]
              eq_refl eq_refl eq_refl (le_n 12))
    as (houses & angles & w' & Hrun & _ & _ & _ & _ & Hone).
  exists houses, angles, w'. split; [exact Hrun|].
  apply Hone. reflexivity.
Defined.

Lemma opposite_angles_sample :
  SWE_HOUSESYS sample_const !! "Koch" = Some ["K"%byte] /\
  exists (w' : World) (desc ic : Q),
    sweHousesLon sample_const sample_engine 2451545 40 (-8) "Koch" 0
      fresh_world = (Ok (whole_sign_cusps, [2235 # 10; 140; desc; ic]), w') /\
    0 <= desc /\ desc < 360 /\ 0 <= ic /\ ic < 360.
Proof.
  split; [reflexivity|].
  destruct (opposite_angles sample_const sample_engine 2451545 40 (-8)
              "Koch" 0 fresh_world ["K"%byte] whole_sign_cusps
              (2235 # 10) 140 [1381 # 10; 30; 0; 0; 0; 0]
              eq_refl eq_refl eq_refl (le_n 12))
    as (houses & w' & desc & ic & _ & Hlon & _ & _
        & (Hd0 & Hd1 & _) & (Hi0 & Hi1 & _)).
  exists w', desc, ic. repeat split; assumption.
Defined.

Lemma sweHousesLon_matches_sample :
  SWE_HOUSESYS sample_const !! "Placidus" = Some ["P"%byte] /\
  exists (houses : list house) (angles : list angle_rec) (w' : World),
    sweHouses sample_const sample_engine 2451545 40 (-8) "Placidus" 0
      fresh_world = (Ok (houses, angles), w') /\
    sweHousesLon sample_const sample_engine 2451545 40 (-8) "Placidus" 0
      fresh_world
    = (Ok (map house_lon houses, map angle_lon angles), w').
Proof.
  split; [reflexivity|].
  destruct (sweHousesLon_matches_sweHouses sample_const sample_engine
              2451545 40 (-8) "Placidus" 0 fresh_world ["P"%byte]
              whole_sign_cusps (2235 # 10) 140 [1381 # 10; 30; 0; 0; 0; 0]
              eq_refl eq_refl eq_refl (le_n 12))
    as (houses & angles & cusps & lons & w' & Hrun & Hlon & Hc & Ha & _).
  exists houses, angles, w'. split; [exact Hrun|].
  rewrite Hc, Ha. exact Hlon.
Defined.

(** ** Cusps that do not make one turn *)

(** Twelve cusps in backward order: every house spans 330 degrees and
    the sizes add up to eleven turns, not one. *)
Lemma sweHouses_sizes_sum_counterexample :
  exists (houses : list house) (angles : list angle_rec) (w' : World),
    length retrograde_cusps = 12%nat /\
    sweHouses sample_const
      (table_engine sample_xx retrograde_cusps sample_ascmc sample_tret)
      2451545 80 (-8) "Regiomontanus" 0 fresh_world
      = (Ok (houses, angles), w') /\
    Qsum (map house_size houses) == 3960 /\
    ~ Qsum (map house_size houses) == 360.
Proof.
  do 3 eexists. split; [reflexivity|]. split; [reflexivity|].
  split; [reflexivity|].
  intros H. vm_compute in H. discriminate H.
Qed.

(** Twelve cusps at one longitude: every house has size zero. *)
Example sweHouses_sizes_sum_zero :
  exists (houses : list house) (angles : list angle_rec) (w' : World),
    sweHouses sample_const
      (table_engine sample_xx (repeat 15 12) sample_ascmc sample_tret)
      2451545 80 (-8) "Regiomontanus" 0 fresh_world
      = (Ok (houses, angles), w') /\
    Qsum (map house_size houses) == 0.
Proof.
  do 3 eexists. split; reflexivity.
Qed.

(** * Further properties *)

(** ** The two tables *)

Lemma dict_display_fold_lookup {V : Type}
    (items : list (string * V)) (d : gmap string V) (k : string) (v : V) :
  fold_left (fun d kv => <[kv.1 := kv.2]> d) items d !! k = Some v ->
  (k, v) ∈ items \/ d !! k = Some v.
Proof.
  revert d. induction items as [|[k0 v0] t IH]; intros d H; cbn in H.
  - right. exact H.
  - destruct (IH _ H) as [Hin | Hd].
    + left. apply elem_of_cons. right. exact Hin.
    + destruct (decide (k0 = k)) as [->|Hne].
      * rewrite lookup_insert_eq in Hd. injection Hd as ->.
        left. apply elem_of_cons. left. reflexivity.
      * rewrite lookup_insert_ne in Hd by exact Hne. right. exact Hd.
Qed.


(** An entry of a dictionary display is one of the items written. *)
Lemma dict_display_lookup {V : Type}
    (items : list (string * V)) (k : string) (v : V) :
  dict_display items !! k = Some v -> (k, v) ∈ items.
Proof.
  intros H. destruct (dict_display_fold_lookup items ∅ k v H) as [Hin|He].
  - exact Hin.
  - rewrite lookup_empty in He. discriminate He.
Qed.


(** A key written twice keeps the value written last. *)
Lemma dict_display_last {V : Type} (items : list (string * V)) (k : string) (v : V) :
  dict_display (items ++ [(k, v)]) !! k = Some v.
Proof.
  unfold dict_display. rewrite fold_left_app. cbn. apply lookup_insert_eq.
Qed.

(** Items with pairwise different values give different keys different
    values. *)
Lemma items_value_key {V : Type} (items : list (string * V)) (a b : string) (v : V) :
  NoDup items.*2 -> (a, v) ∈ items -> (b, v) ∈ items -> a = b.
Proof.
  induction items as [|[k0 v0] t IH]; intros Hnd Ha Hb.
  - apply elem_of_nil in Ha. destruct Ha.
  - cbn in Hnd. apply NoDup_cons in Hnd as [Hnotin Hnd].
    apply elem_of_cons in Ha as [Ha|Ha]; apply elem_of_cons in Hb as [Hb|Hb].
    + congruence.
    + injection Ha as -> ->. exfalso. apply Hnotin.
      apply (list_elem_of_fmap_2 snd) in Hb. exact Hb.
    + injection Hb as -> ->. exfalso. apply Hnotin.
      apply (list_elem_of_fmap_2 snd) in Ha. exact Ha.
    + exact (IH Hnd Ha Hb).
Qed.


(** X2. Whatever the body constants are, a code stored in [SWE_OBJECTS]
    is one of 0..10 or 15..20, and no two names share a code. *)
Theorem SWE_OBJECTS_codes (const : Const) (a : string) (c : Z) :
  SWE_OBJECTS const !! a = Some c ->
  ((0 <= c <= 10)%Z \/ (15 <= c <= 20)%Z) /\
  forall b : string, SWE_OBJECTS const !! b = Some c -> a = b.
Proof.
  intros Ha. apply dict_display_lookup in Ha. split.
  - repeat (apply elem_of_cons in Ha as [Ha|Ha];
            [injection Ha as -> ->; lia|]).
    apply elem_of_nil in Ha. destruct Ha.
  - intros b Hb. apply dict_display_lookup in Hb.
    refine (items_value_key _ a b c _ Ha Hb). cbn.
    repeat (apply NoDup_cons; split;
            [rewrite ?elem_of_cons, elem_of_nil; lia|]).
    apply NoDup_nil_2.
Qed.

Lemma SWE_OBJECTS_codes_chiron :
  SWE_OBJECTS sample_const !! "Chiron" = Some 15%Z /\
  forall b : string, SWE_OBJECTS sample_const !! b = Some 15%Z -> "Chiron" = b.
Proof.
  split; [reflexivity|].
  apply (SWE_OBJECTS_codes sample_const "Chiron" 15%Z eq_refl).
Defined.


(** X4. Whatever the house-system constants are, a code stored in
    [SWE_HOUSESYS] is a single byte, and no two names share a code. *)
Theorem SWE_HOUSESYS_codes (const : Const) (a : string) (code : bytes) :
  SWE_HOUSESYS const !! a = Some code ->
  length code = 1%nat /\
  forall b : string, SWE_HOUSESYS const !! b = Some code -> a = b.
Proof.
  intros Ha. apply dict_display_lookup in Ha. split.
  - repeat (apply elem_of_cons in Ha as [Ha|Ha];
            [injection Ha as -> ->; reflexivity|]).
    apply elem_of_nil in Ha. destruct Ha.
  - intros b Hb. apply dict_display_lookup in Hb.
    refine (items_value_key _ a b code _ Ha Hb). cbn.
    repeat (apply NoDup_cons; split;
            [rewrite ?elem_of_cons, elem_of_nil; intuition discriminate|]).
    apply NoDup_nil_2.
Qed.

Lemma SWE_HOUSESYS_codes_koch :
  SWE_HOUSESYS sample_const !! "Koch" = Some ["K"%byte] /\
  forall b : string,
    SWE_HOUSESYS sample_const !! b = Some ["K"%byte] -> "Koch" = b.
Proof.
  split; [reflexivity|].
  apply (SWE_HOUSESYS_codes sample_const "Koch" ["K"%byte] eq_refl).
Defined.

(** ** What a run does to the engine *)

Lemma quiet_ret {A : Type} (a : A) : quiet (ret a).
Proof. intros w. reflexivity. Qed.

Lemma quiet_raise {A : Type} (e : exn) : quiet (@raise A e).
Proof. intros w. reflexivity. Qed.

Lemma quiet_getitem {A : Type} (t : list A) (i : nat) : quiet (getitem t i).
Proof. intros w. unfold getitem. destruct (t !! i); reflexivity. Qed.

Lemma quiet_lookup_key {V : Type} (d : gmap string V) (k : string) :
  quiet (lookup_key d k).
Proof. intros w. unfold lookup_key. destruct (d !! k); reflexivity. Qed.

Lemma quiet_bind {A B : Type} (m : Py A) (k : A -> Py B) :
  quiet m -> (forall a : A, quiet (k a)) -> quiet (bind m k).
Proof.
  intros Hm Hk w. unfold bind. specialize (Hm w).
  destruct (m w) as [[a|e] w1]; cbn [snd] in Hm; subst w1.
  - apply Hk.
  - reflexivity.
Qed.

Lemma quiet_comprehension {A B : Type} (f : A -> Py B) (l : list A) :
  (forall i : A, quiet (f i)) -> quiet (comprehension f l).
Proof.
  intros Hf. induction l as [|i l IH]; cbn [comprehension].
  - apply quiet_ret.
  - apply quiet_bind; [apply Hf|]. intros y.
    apply quiet_bind; [exact IH|]. intros ys. apply quiet_ret.
Qed.

Lemma keeps_path_quiet {A : Type} (m : Py A) : quiet m -> keeps_path m.
Proof. intros Hm w. rewrite Hm. reflexivity. Qed.

Lemma keeps_path_invoke {A : Type} (c : call) (answer : World -> string + A) :
  keeps_path (invoke c answer).
Proof. intros w. unfold invoke. destruct (answer w); reflexivity. Qed.

Lemma keeps_path_bind {A B : Type} (m : Py A) (k : A -> Py B) :
  keeps_path m -> (forall a : A, keeps_path (k a)) -> keeps_path (bind m k).
Proof.
  intros Hm Hk w. unfold bind. specialize (Hm w).
  destruct (m w) as [[a|e] w1]; cbn [snd] in Hm.
  - rewrite Hk. exact Hm.
  - exact Hm.
Qed.

(** After an engine call, a continuation that reaches no engine routine
    leaves the state with exactly that call added. *)
Lemma invoke_then_quiet {A B : Type}
    (c : call) (answer : World -> string + A) (k : A -> Py B) (w : World) :
  (forall a : A, quiet (k a)) ->
  (bind (invoke c answer) k w).2 =
  {| ephe_path := ephe_path w; trace := trace w ++ [c] |}.
Proof.
  intros Hk. unfold bind, invoke. destruct (answer w) as [msg|a]; cbn.
  - reflexivity.
  - apply Hk.
Qed.

Ltac quiet_steps :=
  repeat first
    [ apply quiet_ret
    | apply quiet_raise
    | apply quiet_getitem
    | apply quiet_lookup_key
    | apply quiet_comprehension; intros
    | apply quiet_bind; [|intros]
    | match goal with
      | |- quiet (match ?x with _ => _ end) => destruct x
      end ].

Ltac keeps_path_steps :=
  repeat first
    [ apply keeps_path_invoke
    | apply keeps_path_quiet; solve [quiet_steps]
    | apply keeps_path_bind; [|intros]
    | match goal with
      | |- keeps_path (match ?x with _ => _ end) => destruct x
      end ].

(** X5. Of the eight queries only [sweObject] touches the engine's
    ephemeris path: whatever the arguments and whatever the engine
    answers, each of the other seven leaves the path as it found it. *)
Theorem path_untouched_outside_sweObject
    (const : Const) (swisseph : Swisseph)
    (obj hsys flag star : string) (jd lat lon : Q) (flags : Z)
    (backward : bool) :
  keeps_path (sweObjectLon const swisseph obj jd flags) /\
  keeps_path (sweNextTransit const swisseph obj jd lat lon flag) /\
  keeps_path (sweHouses const swisseph jd lat lon hsys flags) /\
  keeps_path (sweHousesLon const swisseph jd lat lon hsys flags) /\
  keeps_path (sweFixedStar swisseph star jd flags) /\
  keeps_path (solarEclipseGlobal swisseph jd backward) /\
  keeps_path (lunarEclipseGlobal swisseph jd backward).
Proof.
  unfold sweObjectLon, sweNextTransit, sweHouses, sweHousesLon,
    sweFixedStar, solarEclipseGlobal, lunarEclipseGlobal.
  repeat split; cbn zeta; keeps_path_steps.
Qed.

(** ** Failures of the engine *)

Ltac split_in H :=
  repeat (cbn [fst snd] in H;
          match type of H with
          | context [match ?x with _ => _ end] =>
              lazymatch x with
              | context [match _ with _ => _ end] => fail
              | _ => destruct x eqn:?
              end
          end).

(** X6. When an engine routine raises, the query that called it raises
    the engine's error with the same message: nothing is caught, wrapped
    or replaced by a value.  For [sweFixedStar] this holds for the
    position routine and, when that one returned, for the magnitude
    routine. *)
Theorem engine_errors_propagate
    (const : Const) (swisseph : Swisseph)
    (obj hsys flag star : string) (jd lat lon : Q) (flags : Z)
    (backward : bool) (w : World) (body : Z) (code : bytes) (msg : string) :
  SWE_OBJECTS const !! obj = Some body ->
  SWE_HOUSESYS const !! hsys = Some code ->
  (calc_ut swisseph
     {| ephe_path := Some (SE_PATH const);
        trace := trace w ++ [SetEphePath (SE_PATH const)] |}
     jd body flags = inl msg ->
   (sweObject const swisseph obj jd flags w).1 = Raise (SweError msg)) /\
  (calc_ut swisseph w jd body flags = inl msg ->
   (sweObjectLon const swisseph obj jd flags w).1 = Raise (SweError msg)) /\
  (rise_trans swisseph w jd body lon lat 0 0 0
     (if String.eqb flag "RISE" then CALC_RISE else CALC_SET) = inl msg ->
   (sweNextTransit const swisseph obj jd lat lon flag w).1
     = Raise (SweError msg)) /\
  (houses_ex swisseph w jd lat lon code flags = inl msg ->
   (sweHouses const swisseph jd lat lon hsys flags w).1
     = Raise (SweError msg) /\
   (sweHousesLon const swisseph jd lat lon hsys flags w).1
     = Raise (SweError msg)) /\
  (fixstar2_ut swisseph w star jd 0 = inl msg ->
   (sweFixedStar swisseph star jd flags w).1 = Raise (SweError msg)) /\
  (forall (xx : list Q) (stnam : string) (flg : Z),
     fixstar2_ut swisseph w star jd 0 = inr (xx, stnam, flg) ->
     fixstar2_mag swisseph
       {| ephe_path := ephe_path w;
          trace := trace w ++ [Fixstar2Ut star jd 0] |} star = inl msg ->
     (sweFixedStar swisseph star jd flags w).1 = Raise (SweError msg)) /\
  (sol_eclipse_when_glob swisseph w jd backward = inl msg ->
   (solarEclipseGlobal swisseph jd backward w).1 = Raise (SweError msg)) /\
  (lun_eclipse_when swisseph w jd backward = inl msg ->
   (lunarEclipseGlobal swisseph jd backward w).1 = Raise (SweError msg)).
Proof.
  intros Hobj Hsys.
  unfold sweObject, sweObjectLon, sweNextTransit, sweHouses, sweHousesLon,
    sweFixedStar, solarEclipseGlobal, lunarEclipseGlobal.
  run_py. rewrite Hobj, Hsys. cbn [fst snd trace ephe_path].
  repeat split; intros; repeat match goal with
                               | H : _ = inl _ |- _ => rewrite H
                               | H : _ = inr _ |- _ => rewrite H
                               end; reflexivity.
Qed.

Lemma engine_errors_propagate_sample :
  SWE_OBJECTS sample_const !! "Moon" = Some 1%Z /\
  SWE_HOUSESYS sample_const !! "Campanus" = Some ["C"%byte] /\
  (sweObject sample_const (failing_engine "jd out of range") "Moon"
     2451545 0 fresh_world).1 = Raise (SweError "jd out of range") /\
  (sweHouses sample_const (failing_engine "jd out of range")
     2451545 40 (-8) "Campanus" 0 fresh_world).1
    = Raise (SweError "jd out of range").
Proof.
  split; [reflexivity|]. split; [reflexivity|].
  destruct (engine_errors_propagate sample_const
              (failing_engine "jd out of range") "Moon" "Campanus" "RISE"
              "Spica" 2451545 40 (-8) 0 true fresh_world 1%Z ["C"%byte]
              "jd out of range" eq_refl eq_refl)
    as (Hobj & _ & _ & Hhouses & _).
  split; [exact (Hobj eq_refl) | exact (proj1 (Hhouses eq_refl))].
Defined.

(** ** The longitude-only variants *)

(** X7. On an engine whose position routine depends on its state only
    through the ephemeris path, once [sweObject] has returned a record
    for a body, [sweObjectLon] run next with the same arguments returns
    the longitude of that record. *)
Theorem sweObjectLon_after_sweObject
    (const : Const) (swisseph : Swisseph)
    (obj : string) (jd : Q) (flags : Z) (w w' : World) (r : object) :
  (forall (w1 w2 : World) (t : Q) (b f : Z),
     ephe_path w1 = ephe_path w2 ->
     calc_ut swisseph w1 t b f = calc_ut swisseph w2 t b f) ->
  sweObject const swisseph obj jd flags w = (Ok r, w') ->
  (sweObjectLon const swisseph obj jd flags w').1 = Ok (object_lon r).
Proof.
  intros Hpath Hrun.
  unfold sweObject in Hrun. unfold sweObjectLon. revert Hrun. run_py.
  destruct (SWE_OBJECTS const !! obj) as [body|]; [|discriminate].
  cbn [fst snd trace ephe_path]. intros Hrun.
  split_in Hrun; try discriminate Hrun.
  injection Hrun as <- <-. cbn [object_lon fst snd].
  match goal with
  | H : calc_ut swisseph ?w0 jd body flags = inr _ |- _ =>
      rewrite (Hpath _ w0 jd body flags); [rewrite H|reflexivity]
  end.
  cbn [fst snd].
  match goal with H : _ !! 0%nat = Some _ |- _ => rewrite H end.
  reflexivity.
Qed.

Lemma sweObjectLon_after_sweObject_sun :
  (sweObjectLon sample_const sample_engine "Sun" 2451545 0
     {| ephe_path := Some "/usr/share/ephe";
        trace := [SetEphePath "/usr/share/ephe"; CalcUt 2451545 0 0] |}).1
    = Ok (2805 # 10).
Proof.
  refine (sweObjectLon_after_sweObject sample_const sample_engine "Sun"
            2451545 0 fresh_world _
            {| object_id := "Sun"; object_lon := 2805 # 10;
               object_lat := 1 # 10; object_lonspeed := 102 # 100;
               object_latspeed := 0; object_flg := 0 |} _ eq_refl).
  intros w1 w2 t b f Hp. cbn. rewrite Hp. reflexivity.
Defined.

(** ** When a query returns *)

(** X8. [sweObject] returns a record exactly when the body is in the
    table and the position routine, called with the path set, returns a
    tuple of at least five numbers.  [sweObjectLon] returns [v] exactly
    when the body is in the table and the position routine, called in the
    state as it is, returns a tuple whose first element is [v]; one
    element is enough. *)
Theorem object_queries_return_iff
    (const : Const) (swisseph : Swisseph)
    (obj : string) (jd : Q) (flags : Z) (w : World) (v : Q) :
  ((exists r : object, (sweObject const swisseph obj jd flags w).1 = Ok r) <->
   exists (body : Z) (xx : list Q) (flg : Z),
     SWE_OBJECTS const !! obj = Some body /\
     calc_ut swisseph
       {| ephe_path := Some (SE_PATH const);
          trace := trace w ++ [SetEphePath (SE_PATH const)] |}
       jd body flags = inr (xx, flg) /\
     (5 <= length xx)%nat) /\
  ((sweObjectLon const swisseph obj jd flags w).1 = Ok v <->
   exists (body : Z) (xx : list Q) (flg : Z),
     SWE_OBJECTS const !! obj = Some body /\
     calc_ut swisseph w jd body flags = inr (xx, flg) /\
     xx !! 0%nat = Some v).
Proof.
  split; split.
  - intros [r H]. unfold sweObject in H. revert H. run_py.
    cbn [fst snd trace ephe_path]. intros H.
    split_in H; try discriminate H.
    do 3 eexists. split; [reflexivity|]. split; [eassumption|].
    match goal with
    | E : _ !! 4%nat = Some _ |- _ => apply lookup_lt_Some in E; lia
    end.
  - intros (body & xx & flg & Hobj & Hans & Hlen).
    destruct xx as [|x0 [|x1 [|x2 [|x3 [|x4 more]]]]];
      cbn [length] in Hlen; try lia.
    unfold sweObject. run_py. rewrite Hobj. cbn [fst snd trace ephe_path].
    rewrite Hans. eexists. reflexivity.
  - intros H. unfold sweObjectLon in H. revert H. run_py. intros H.
    split_in H; try discriminate H.
    injection H as <-. do 3 eexists.
    split; [reflexivity|]. split; eassumption.
  - intros (body & xx & flg & Hobj & Hans & H0).
    unfold sweObjectLon. run_py. rewrite Hobj. cbn [fst snd].
    rewrite Hans. cbn [fst snd]. rewrite H0. reflexivity.
Qed.

(** X9. [sweNextTransit] returns [v] exactly when the body is in the
    table and the rise/transit search, called with the longitude before
    the latitude, three zeros and the mode chosen from the flag, returns
    a result whose time tuple starts with [v]. *)
Theorem sweNextTransit_returns_iff
    (const : Const) (swisseph : Swisseph)
    (obj flag : string) (jd lat lon : Q) (w : World) (v : Q) :
  (sweNextTransit const swisseph obj jd lat lon flag w).1 = Ok v <->
  exists (body res : Z) (tret : list Q),
    SWE_OBJECTS const !! obj = Some body /\
    rise_trans swisseph w jd body lon lat 0 0 0
      (if String.eqb flag "RISE" then CALC_RISE else CALC_SET)
      = inr (res, tret) /\
    tret !! 0%nat = Some v.
Proof.
  split.
  - intros H. unfold sweNextTransit in H.
    set (mode := if String.eqb flag "RISE" then CALC_RISE else CALC_SET) in *.
    clearbody mode. revert H. run_py. intros H.
    split_in H; try discriminate H.
    cbn [fst snd] in H. injection H as <-.
    match goal with
    | E : rise_trans _ _ _ _ _ _ _ _ _ _ = inr ?p |- _ =>
        destruct p as [res tret]
    end.
    do 3 eexists. split; [reflexivity|]. split; eassumption.
  - intros (body & res & tret & Hobj & Hans & H0).
    unfold sweNextTransit. run_py. rewrite Hobj. cbn [fst snd].
    rewrite Hans. cbn [fst snd]. rewrite H0. reflexivity.
Qed.

(** X10. [sweFixedStar] returns a record exactly when the position
    routine, called with flag 0, and then the magnitude routine both
    return and the position tuple has at least two numbers; the record
    then holds the caller's star name, that magnitude and the first two
    numbers. *)
Theorem sweFixedStar_returns_iff
    (swisseph : Swisseph)
    (star : string) (jd : Q) (flags : Z) (w : World) (r : fixed_star) :
  (sweFixedStar swisseph star jd flags w).1 = Ok r <->
  exists (xx : list Q) (stnam : string) (flg : Z) (mag lon lat : Q),
    fixstar2_ut swisseph w star jd 0 = inr (xx, stnam, flg) /\
    fixstar2_mag swisseph
      {| ephe_path := ephe_path w;
         trace := trace w ++ [Fixstar2Ut star jd 0] |} star = inr mag /\
    xx !! 0%nat = Some lon /\
    xx !! 1%nat = Some lat /\
    r = {| star_id := star; star_mag := mag;
           star_lon := lon; star_lat := lat |}.
Proof.
  split.
  - intros H. unfold sweFixedStar in H. revert H. run_py. intros H.
    split_in H; try discriminate H.
    cbn [fst snd] in H. injection H as <-. do 6 eexists.
    repeat split; first [reflexivity | eassumption].
  - intros (xx & stnam & flg & mag & lon & lat & Hpos & Hmag & H0 & H1 & ->).
    unfold sweFixedStar. run_py. rewrite Hpos. cbn [fst snd].
    rewrite Hmag. cbn [fst snd]. rewrite H0, H1. reflexivity.
Qed.

(** X11. [sweFixedStar] asks for the magnitude exactly when the position
    routine returned: its engine calls are the position call alone when
    that one raises, and the position call followed by the magnitude call
    otherwise, also when the position tuple turns out too short. *)
Theorem sweFixedStar_calls
    (swisseph : Swisseph) (star : string) (jd : Q) (flags : Z) (w : World) :
  calls_of (sweFixedStar swisseph star jd flags) w =
  match fixstar2_ut swisseph w star jd 0 with
  | inl _ => [Fixstar2Ut star jd 0]
  | inr _ => [Fixstar2Ut star jd 0; Fixstar2Mag star]
  end.
Proof.
  unfold calls_of, sweFixedStar. run_py.
  split_answers; count_calls; reflexivity.
Qed.

(** ** Houses on tuples of any length *)

(** One item of the comprehension of [sweHouses]: the house of index
    [i] when it has a label and a cusp with a successor, [IndexError]
    otherwise; the engine is not reached. *)
Lemma house_item (names : list string) (hl : list Q) (i : nat) (w : World) :
  (let* id := getitem names i in
   let* lon := getitem hl i in
   let* a := getitem hl i in
   let* b := getitem hl (i + 1) in
   ret {| house_id := id;
          house_lon := lon;
          house_size := angle.distance a b |}) w =
  (if (i <? length names)%nat && (i + 1 <? length hl)%nat
   then Ok {| house_id := nth i names ""%string;
              house_lon := nth i hl 0;
              house_size := angle.distance (nth i hl 0) (nth (i + 1) hl 0) |}
   else Raise IndexError, w).
Proof.
  run_py.
  destruct (Nat.ltb_spec i (length names)) as [Hn|Hn].
  - destruct (lookup_lt_is_Some_2 names i Hn) as [x Hx]. rewrite Hx.
    rewrite (nth_lookup_Some names i ""%string x Hx). cbn [andb].
    destruct (Nat.ltb_spec (i + 1) (length hl)) as [Hh|Hh].
    + destruct (lookup_lt_is_Some_2 hl (i + 1) Hh) as [b Hb].
      assert (Hi : (i < length hl)%nat) by lia.
      destruct (lookup_lt_is_Some_2 hl i Hi) as [a Ha].
      rewrite (nth_lookup_Some hl i 0 a Ha).
      rewrite (nth_lookup_Some hl (i + 1) 0 b Hb).
      rewrite Ha, Hb. reflexivity.
    + rewrite (lookup_ge_None_2 hl (i + 1)) by lia.
      destruct (hl !! i); reflexivity.
  - rewrite (lookup_ge_None_2 names i) by lia. reflexivity.
Qed.

(** The comprehension of [sweHouses] over any indices. *)
Lemma house_comprehension
    (names : list string) (hl : list Q) (l : list nat) (w : World) :
  comprehension
    (fun i =>
       let* id := getitem names i in
       let* lon := getitem hl i in
       let* a := getitem hl i in
       let* b := getitem hl (i + 1) in
       ret {| house_id := id;
              house_lon := lon;
              house_size := angle.distance a b |}) l w =
  (if forallb (fun i => (i <? length names)%nat && (i + 1 <? length hl)%nat) l
   then Ok (map (fun i =>
                   {| house_id := nth i names ""%string;
                      house_lon := nth i hl 0;
                      house_size :=
                        angle.distance (nth i hl 0) (nth (i + 1) hl 0) |}) l)
   else Raise IndexError, w).
Proof.
  induction l as [|i l IH]; [reflexivity|].
  cbn [comprehension forallb map]. unfold bind at 1.
  rewrite house_item.
  destruct ((i <? length names)%nat && (i + 1 <? length hl)%nat);
    cbn [andb]; [|reflexivity].
  unfold bind at 1. rewrite IH.
  destruct (forallb _ l); reflexivity.
Qed.

Lemma twelve_in_range (n m : nat) :
  forallb (fun i => (i <? n)%nat && (i + 1 <? m + 1)%nat) (seq 0 12) = true <->
  (12 <= n)%nat /\ (12 <= m)%nat.
Proof.
  rewrite forallb_forall. split.
  - intros H. specialize (H 11%nat). rewrite in_seq in H.
    assert (Hin : (0 <= 11 < 0 + 12)%nat) by lia.
    apply H, andb_prop in Hin as [H1 H2].
    apply Nat.ltb_lt in H1, H2. lia.
  - intros [Hn Hm] i Hi. apply in_seq in Hi.
    apply andb_true_intro. split; apply Nat.ltb_lt; lia.
Qed.

Lemma bind_lookup_key_Some {V B : Type}
    (d : gmap string V) (key : string) (v : V) (k : V -> Py B) (w : World) :
  d !! key = Some v -> bind (lookup_key d key) k w = k v w.
Proof. intros H. unfold bind, lookup_key. rewrite H. reflexivity. Qed.

Lemma bind_invoke_inr {A B : Type}
    (c : call) (answer : World -> string + A) (a : A) (k : A -> Py B)
    (w : World) :
  answer w = inr a ->
  bind (invoke c answer) k w =
  k a {| ephe_path := ephe_path w; trace := trace w ++ [c] |}.
Proof. intros H. unfold bind, invoke. rewrite H. reflexivity. Qed.

Lemma bind_getitem_Some {A B : Type}
    (t : list A) (i : nat) (x : A) (k : A -> Py B) (w : World) :
  t !! i = Some x -> bind (getitem t i) k w = k x w.
Proof. intros H. unfold bind, getitem. rewrite H. reflexivity. Qed.

Lemma bind_getitem_None {A B : Type}
    (t : list A) (i : nat) (k : A -> Py B) (w : World) :
  t !! i = None -> bind (getitem t i) k w = (Raise IndexError, w).
Proof. intros H. unfold bind, getitem. rewrite H. reflexivity. Qed.

(** The run of [sweHouses] once the engine has answered, on tuples of any
    length. *)
Lemma sweHouses_answered
    (const : Const) (swisseph : Swisseph)
    (jd lat lon : Q) (hsys : string) (flags : Z) (w : World)
    (code : bytes) (hlist ascmc : list Q) :
  SWE_HOUSESYS const !! hsys = Some code ->
  houses_ex swisseph w jd lat lon code flags = inr (hlist, ascmc) ->
  sweHouses const swisseph jd lat lon hsys flags w =
  (if ((12 <=? length hlist)%nat && (12 <=? length (LIST_HOUSES const))%nat
       && (2 <=? length ascmc)%nat)%bool
   then
     Ok (map (fun i =>
                {| house_id := nth i (LIST_HOUSES const) ""%string;
                   house_lon := nth i (hlist ++ [hd 0 hlist]) 0;
                   house_size :=
                     angle.distance
                       (nth i (hlist ++ [hd 0 hlist]) 0)
                       (nth (i + 1) (hlist ++ [hd 0 hlist]) 0) |})
             (seq 0 12),
         [ {| angle_id := ASC const; angle_lon := nth 0 ascmc 0 |};
           {| angle_id := MC const; angle_lon := nth 1 ascmc 0 |};
           {| angle_id := DESC const;
              angle_lon := angle.norm (nth 0 ascmc 0 + 180) |};
           {| angle_id := IC const;
              angle_lon := angle.norm (nth 1 ascmc 0 + 180) |} ])
   else Raise IndexError,
   {| ephe_path := ephe_path w;
      trace := trace w ++ [HousesEx jd lat lon code flags] |}).
Proof.
  intros Hsys Hans. unfold sweHouses.
  rewrite (bind_lookup_key_Some _ _ _ _ _ Hsys).
  rewrite (bind_invoke_inr _ _ _ _ _ Hans).
  destruct hlist as [|h0 t].
  { rewrite bind_getitem_None by reflexivity. reflexivity. }
  rewrite (bind_getitem_Some _ _ h0) by reflexivity.
  cbn zeta. cbn [hd]. unfold bind at 1. rewrite house_comprehension.
  rewrite length_app. cbn [length].
  destruct (forallb _ (seq 0 12)) eqn:Hall.
  - apply twelve_in_range in Hall as [Hn Hh].
    apply Nat.leb_le in Hn, Hh. cbn [length] in Hh. rewrite Hn, Hh.
    cbn [andb].
    destruct ascmc as [|asc [|mc rest]]; [reflexivity|reflexivity|].
    reflexivity.
  - assert (Hno : ((12 <=? S (length t))%nat
                   && (12 <=? length (LIST_HOUSES const))%nat)%bool = false).
    { apply not_true_is_false. intros Hyes.
      apply andb_prop in Hyes as [Hh Hn]. apply Nat.leb_le in Hh, Hn.
      assert (Hyes : forallb
                (fun i => (i <? length (LIST_HOUSES const))%nat
                          && (i + 1 <? S (length t) + 1)%nat) (seq 0 12)
              = true) by (apply twelve_in_range; split; assumption).
      rewrite Hyes in Hall. discriminate Hall. }
    rewrite Hno. reflexivity.
Qed.

Lemma map_nth_seq {A : Type} (l : list A) (d : A) (s n : nat) :
  (s + n <= length l)%nat ->
  map (fun i => nth i l d) (seq s n) = take n (drop s l).
Proof.
  revert s. induction n as [|n IH]; intros s Hlen.
  - reflexivity.
  - assert (Hs : (s < length l)%nat) by lia.
    destruct (lookup_lt_is_Some_2 l s Hs) as [x Hx].
    rewrite (drop_S l x s Hx). cbn [seq map take].
    rewrite (nth_lookup_Some l s d x Hx), IH by lia. reflexivity.
Qed.

(** X12. [sweHousesLon] returns exactly when the house system is in the
    table and the engine returns at least two angles; it then hands back
    the engine's cusp tuple as it is, of any length, and the four angle
    longitudes. *)
Theorem sweHousesLon_returns_iff
    (const : Const) (swisseph : Swisseph)
    (jd lat lon : Q) (hsys : string) (flags : Z) (w : World)
    (cusps lons : list Q) :
  (sweHousesLon const swisseph jd lat lon hsys flags w).1 = Ok (cusps, lons) <->
  exists (code : bytes) (ascmc : list Q) (asc mc : Q),
    SWE_HOUSESYS const !! hsys = Some code /\
    houses_ex swisseph w jd lat lon code flags = inr (cusps, ascmc) /\
    ascmc !! 0%nat = Some asc /\
    ascmc !! 1%nat = Some mc /\
    lons = [asc; mc; angle.norm (asc + 180); angle.norm (mc + 180)].
Proof.
  split.
  - intros H. unfold sweHousesLon in H. revert H. run_py. intros H.
    split_in H; try discriminate H.
    cbn [fst snd] in H. injection H as <- <-. do 4 eexists.
    repeat split; first [reflexivity | eassumption].
  - intros (code & ascmc & asc & mc & Hsys & Hans & H0 & H1 & ->).
    unfold sweHousesLon. run_py. rewrite Hsys. cbn [fst snd].
    rewrite Hans. cbn [fst snd]. rewrite H0, H1. reflexivity.
Qed.

(** X13. Once the house system is translated and the engine has
    answered, [sweHouses] raises [IndexError] exactly when the engine
    gave fewer than twelve cusps or fewer than two angles, or
    [LIST_HOUSES] has fewer than twelve labels. *)
Theorem sweHouses_index_error_iff
    (const : Const) (swisseph : Swisseph)
    (jd lat lon : Q) (hsys : string) (flags : Z) (w : World)
    (code : bytes) (hlist ascmc : list Q) :
  SWE_HOUSESYS const !! hsys = Some code ->
  houses_ex swisseph w jd lat lon code flags = inr (hlist, ascmc) ->
  ((sweHouses const swisseph jd lat lon hsys flags w).1 = Raise IndexError <->
   (length hlist < 12)%nat \/ (length (LIST_HOUSES const) < 12)%nat \/
   (length ascmc < 2)%nat).
Proof.
  intros Hsys Hans.
  rewrite (sweHouses_answered const swisseph jd lat lon hsys flags w code
             hlist ascmc Hsys Hans). cbn [fst].
  destruct (Nat.leb_spec 12 (length hlist));
    destruct (Nat.leb_spec 12 (length (LIST_HOUSES const)));
    destruct (Nat.leb_spec 2 (length ascmc)); cbn [andb];
    split; intros Hx; try reflexivity; try discriminate Hx; lia.
Qed.

Lemma sweHouses_index_error_eleven :
  SWE_HOUSESYS sample_const !! "Koch" = Some ["K"%byte] /\
  (length eleven_cusps < 12)%nat /\
  (sweHouses sample_const
     (table_engine sample_xx eleven_cusps sample_ascmc sample_tret)
     2451545 40 (-8) "Koch" 0 fresh_world).1 = Raise IndexError.
Proof.
  split; [reflexivity|]. split; [cbn; lia|].
  apply (sweHouses_index_error_iff sample_const
           (table_engine sample_xx eleven_cusps sample_ascmc sample_tret)
           2451545 40 (-8) "Koch" 0 fresh_world ["K"%byte] eleven_cusps
           sample_ascmc eq_refl eq_refl).
  left. cbn. lia.
Defined.

(** X14. When the engine gives at least twelve cusps and two angles and
    [LIST_HOUSES] has at least twelve labels, [sweHouses] returns twelve
    houses: their ids are the first twelve labels in order, their
    longitudes the first twelve cusps in order, and the size of house [i]
    is the forward distance from cusp [i] to the element after it in the
    tuple extended by its first cusp. *)
Theorem sweHouses_first_twelve
    (const : Const) (swisseph : Swisseph)
    (jd lat lon : Q) (hsys : string) (flags : Z) (w : World)
    (code : bytes) (hlist ascmc : list Q) :
  SWE_HOUSESYS const !! hsys = Some code ->
  houses_ex swisseph w jd lat lon code flags = inr (hlist, ascmc) ->
  (12 <= length hlist)%nat ->
  (12 <= length (LIST_HOUSES const))%nat ->
  (2 <= length ascmc)%nat ->
  exists (houses : list house) (angles : list angle_rec),
    (sweHouses const swisseph jd lat lon hsys flags w).1
      = Ok (houses, angles) /\
    length houses = 12%nat /\
    map house_id houses = take 12 (LIST_HOUSES const) /\
    map house_lon houses = take 12 hlist /\
    forall i : nat, (i < 12)%nat ->
      nth i (map house_size houses) 0 =
      angle.distance (nth i hlist 0) (nth (i + 1) (hlist ++ [hd 0 hlist]) 0).
Proof.
  intros Hsys Hans Hh Hn Ha.
  rewrite (sweHouses_answered const swisseph jd lat lon hsys flags w code
             hlist ascmc Hsys Hans). cbn [fst].
  apply Nat.leb_le in Hh as Hhb, Hn as Hnb, Ha as Hab.
  rewrite Hhb, Hnb, Hab. cbn [andb].
  do 2 eexists. split; [reflexivity|].
  split; [rewrite length_map, length_seq; reflexivity|].
  rewrite !map_map. cbn [house_id house_lon house_size].
  split; [|split].
  - rewrite (map_nth_seq (LIST_HOUSES const) ""%string 0 12) by lia.
    rewrite drop_0. reflexivity.
  - rewrite (map_nth_seq (hlist ++ [hd 0 hlist]) 0 0 12)
      by (rewrite length_app; lia).
    rewrite drop_0. apply take_app_le. exact Hh.
  - intros i Hi.
    rewrite (nth_indep _ 0
               (angle.distance (nth 0 (hlist ++ [hd 0 hlist]) 0)
                  (nth (0 + 1) (hlist ++ [hd 0 hlist]) 0)))
      by (rewrite length_map, length_seq; exact Hi).
    rewrite (map_nth (fun j =>
               angle.distance (nth j (hlist ++ [hd 0 hlist]) 0)
                 (nth (j + 1) (hlist ++ [hd 0 hlist]) 0)) (seq 0 12) 0%nat i).
    rewrite seq_nth by exact Hi. cbn [Nat.add].
    rewrite (app_nth1 hlist [hd 0 hlist] 0) by lia. reflexivity.
Qed.

Lemma sweHouses_first_twelve_sample :
  SWE_HOUSESYS sample_const !! "Equal" = Some ["A"%byte] /\
  exists (houses : list house) (angles : list angle_rec),
    (sweHouses sample_const sample_engine 2451545 40 (-8) "Equal" 0
       fresh_world).1 = Ok (houses, angles) /\
    map house_id houses = LIST_HOUSES sample_const /\
    map house_lon houses = whole_sign_cusps.
Proof.
  split; [reflexivity|].
  destruct (sweHouses_first_twelve sample_const sample_engine 2451545 40
              (-8) "Equal" 0 fresh_world ["A"%byte] whole_sign_cusps
              sample_ascmc eq_refl eq_refl (le_n 12) (le_n 12))
    as (houses & angles & Hrun & _ & Hid & Hlon & _).
  { cbn. lia. }
  exists houses, angles. split; [exact Hrun|].
  split; [exact Hid | exact Hlon].
Defined.

(** X15. For a house system in the table, [sweHouses] and [sweHousesLon]
    each make exactly one engine call, the same one: the house routine
    with the caller's day, latitude, longitude and flags and the
    translated code.  This holds whatever the engine answers and however
    short its tuples are. *)
Theorem houses_queries_single_call
    (const : Const) (swisseph : Swisseph)
    (jd lat lon : Q) (hsys : string) (flags : Z) (w : World) (code : bytes) :
  SWE_HOUSESYS const !! hsys = Some code ->
  calls_of (sweHouses const swisseph jd lat lon hsys flags) w
    = [HousesEx jd lat lon code flags] /\
  calls_of (sweHousesLon const swisseph jd lat lon hsys flags) w
    = [HousesEx jd lat lon code flags].
Proof.
  intros Hsys. unfold calls_of, sweHouses, sweHousesLon.
  rewrite !(bind_lookup_key_Some _ _ _ _ _ Hsys).
  rewrite !invoke_then_quiet.
  - cbn [trace]. rewrite calls_of_one. split; reflexivity.
  - intros [hlist ascmc]. quiet_steps.
  - intros [hlist ascmc]. cbn zeta. quiet_steps.
Qed.

Lemma houses_queries_single_call_sample :
  SWE_HOUSESYS sample_const !! "Morinus" = Some ["M"%byte] /\
  calls_of
    (sweHouses sample_const
       (table_engine sample_xx eleven_cusps [] sample_tret)
       2451545 40 (-8) "Morinus" 256) fresh_world
    = [HousesEx 2451545 40 (-8) ["M"%byte] 256].
Proof.
  split; [reflexivity|].
  apply (houses_queries_single_call sample_const
           (table_engine sample_xx eleven_cusps [] sample_tret)
           2451545 40 (-8) "Morinus" 256 fresh_world ["M"%byte] eq_refl).
Defined.

(** ** Eclipses on tuples of any length *)

(** X16. Each eclipse query returns a record exactly when its search
    routine returns a timing tuple of at least eight instants, and the
    record is then the one made of elements 0, 2, 3, 4, 5, 6 and 7; with
    a shorter tuple no record is returned. *)
Theorem eclipse_queries_return_iff
    (swisseph : Swisseph) (jd : Q) (backward : bool) (w : World)
    (s : solar_eclipse) (l : lunar_eclipse) :
  ((solarEclipseGlobal swisseph jd backward w).1 = Ok s <->
   exists (flag : Z) (tret : list Q),
     sol_eclipse_when_glob swisseph w jd backward = inr (flag, tret) /\
     (8 <= length tret)%nat /\
     s = {| solar_maximum := nth 0 tret 0;
            solar_begin := nth 2 tret 0;
            solar_end := nth 3 tret 0;
            solar_totality_begin := nth 4 tret 0;
            solar_totality_end := nth 5 tret 0;
            solar_center_line_begin := nth 6 tret 0;
            solar_center_line_end := nth 7 tret 0 |}) /\
  ((lunarEclipseGlobal swisseph jd backward w).1 = Ok l <->
   exists (flag : Z) (tret : list Q),
     lun_eclipse_when swisseph w jd backward = inr (flag, tret) /\
     (8 <= length tret)%nat /\
     l = {| lunar_maximum := nth 0 tret 0;
            lunar_partial_begin := nth 2 tret 0;
            lunar_partial_end := nth 3 tret 0;
            lunar_totality_begin := nth 4 tret 0;
            lunar_totality_end := nth 5 tret 0;
            lunar_penumbral_begin := nth 6 tret 0;
            lunar_penumbral_end := nth 7 tret 0 |}).
Proof.
  split; split.
  - intros H. unfold solarEclipseGlobal in H. revert H. run_py.
    destruct (sol_eclipse_when_glob swisseph w jd backward)
      as [msg|[flag tret]]; [discriminate|].
    cbn [fst snd]. intros H. split_in H; try discriminate H.
    cbn [fst snd] in H. injection H as <-.
    exists flag, tret. split; [reflexivity|]. split.
    + match goal with
      | E : tret !! 7%nat = Some _ |- _ => apply lookup_lt_Some in E; lia
      end.
    + repeat match goal with
             | E : tret !! _ = Some _ |- _ =>
                 rewrite (nth_lookup_Some _ _ 0 _ E); clear E
             end.
      reflexivity.
  - intros (flag & tret & Hans & Hlen & ->).
    destruct tret as [|t0 [|t1 [|t2 [|t3 [|t4 [|t5 [|t6 [|t7 more]]]]]]]];
      cbn [length] in Hlen; try lia.
    unfold solarEclipseGlobal. run_py. rewrite Hans. reflexivity.
  - intros H. unfold lunarEclipseGlobal in H. revert H. run_py.
    destruct (lun_eclipse_when swisseph w jd backward)
      as [msg|[flag tret]]; [discriminate|].
    cbn [fst snd]. intros H. split_in H; try discriminate H.
    cbn [fst snd] in H. injection H as <-.
    exists flag, tret. split; [reflexivity|]. split.
    + match goal with
      | E : tret !! 7%nat = Some _ |- _ => apply lookup_lt_Some in E; lia
      end.
    + repeat match goal with
             | E : tret !! _ = Some _ |- _ =>
                 rewrite (nth_lookup_Some _ _ 0 _ E); clear E
             end.
      reflexivity.
  - intros (flag & tret & Hans & Hlen & ->).
    destruct tret as [|t0 [|t1 [|t2 [|t3 [|t4 [|t5 [|t6 [|t7 more]]]]]]]];
      cbn [length] in Hlen; try lia.
    unfold lunarEclipseGlobal. run_py. rewrite Hans. reflexivity.
Qed.

(** ** Setting the path and then querying *)

Lemma bind_setPath {B : Type} (path : string) (k : unit -> Py B) (w : World) :
  bind (setPath path) k w =
  k tt {| ephe_path := Some path; trace := trace w ++ [SetEphePath path] |}.
Proof. reflexivity. Qed.

(** X17. A path set with [setPath] is still the engine's path after any
    of the seven queries other than [sweObject], and after [sweObject]
    on a body missing from the table; [sweObject] on a body of the table
    replaces it by the configured [SE_PATH]. *)
Theorem setPath_then_query
    (const : Const) (swisseph : Swisseph)
    (path obj missing hsys flag star : string) (jd lat lon : Q) (flags : Z)
    (backward : bool) (w : World) (body : Z) :
  SWE_OBJECTS const !! obj = Some body ->
  SWE_OBJECTS const !! missing = None ->
  ephe_path
    (bind (setPath path) (fun _ => sweObject const swisseph obj jd flags) w).2
    = Some (SE_PATH const) /\
  ephe_path
    (bind (setPath path)
       (fun _ => sweObject const swisseph missing jd flags) w).2
    = Some path /\
  ephe_path
    (bind (setPath path)
       (fun _ => sweObjectLon const swisseph obj jd flags) w).2
    = Some path /\
  ephe_path
    (bind (setPath path)
       (fun _ => sweNextTransit const swisseph obj jd lat lon flag) w).2
    = Some path /\
  ephe_path
    (bind (setPath path)
       (fun _ => sweHouses const swisseph jd lat lon hsys flags) w).2
    = Some path /\
  ephe_path
    (bind (setPath path)
       (fun _ => sweHousesLon const swisseph jd lat lon hsys flags) w).2
    = Some path /\
  ephe_path
    (bind (setPath path) (fun _ => sweFixedStar swisseph star jd flags) w).2
    = Some path /\
  ephe_path
    (bind (setPath path)
       (fun _ => solarEclipseGlobal swisseph jd backward) w).2
    = Some path /\
  ephe_path
    (bind (setPath path)
       (fun _ => lunarEclipseGlobal swisseph jd backward) w).2
    = Some path.
Proof.
  intros Hobj Hmissing. rewrite !bind_setPath.
  split; [|split].
  - unfold sweObject. run_py. rewrite Hobj.
    split_answers; reflexivity.
  - unfold sweObject. run_py. rewrite Hmissing. reflexivity.
  - repeat split;
      lazymatch goal with
      | |- ephe_path (?m ?w1).2 = Some path =>
          let K := fresh "K" in
          assert (K : keeps_path m)
            by (unfold sweObjectLon, sweNextTransit, sweHouses,
                  sweHousesLon, sweFixedStar, solarEclipseGlobal,
                  lunarEclipseGlobal; cbn zeta; keeps_path_steps);
          rewrite (K w1); reflexivity
      end.
Qed.

Lemma setPath_then_query_sample :
  SWE_OBJECTS sample_const !! "Venus" = Some 3%Z /\
  SWE_OBJECTS sample_const !! "Lilith" = None /\
  ephe_path
    (bind (setPath "/opt/ephe")
       (fun _ => sweObject sample_const sample_engine "Venus" 2451545 0)
       fresh_world).2 = Some "/usr/share/ephe" /\
  ephe_path
    (bind (setPath "/opt/ephe")
       (fun _ => sweHouses sample_const sample_engine 2451545 40 (-8)
                   "Koch" 0) fresh_world).2 = Some "/opt/ephe".
Proof.
  split; [reflexivity|]. split; [reflexivity|].
  destruct (setPath_then_query sample_const sample_engine "/opt/ephe"
              "Venus" "Lilith" "Koch" "SET" "Spica" 2451545 40 (-8) 0 true
              fresh_world 3%Z eq_refl eq_refl)
    as (Hobj & _ & _ & _ & Hhouses & _).
  split; [exact Hobj | exact Hhouses].
Defined.
